(** * Quadrature: numerical integration rules over a partitioned interval

    A shallow embedding of [Quadrature.py]: the abstract [Quadrature] class
    and its three subclasses [Riemann], [Trapezoid] and [Simpson], together
    with the helper [chunk_iter].

    Numbers.  The Python code computes with [float] (and with [int] literals
    that are coerced).  The arithmetic is kept abstract in the class
    [Number]; every definition below is written once, over any instance.
    Theorems about the shape of the results (lengths, raised errors,
    repeatability) are proved for every instance.  Theorems that state an
    algebraic formula are proved for the instance [Number_Q] of exact
    rationals, up to [Qeq]: they describe the value the code computes when
    rounding is left aside, as it does on [Fraction] inputs.  The instance
    [Number_float] of IEEE doubles runs the code as Python runs it on
    [float] inputs; it shows where rounding, underflow and overflow change
    the outcome.

    Effects.  The only effect is the random draw of the [Random] method and
    the exceptions; both are explicit in the monad [M]. *)

From Stdlib Require Import List ZArith QArith Qfield Lia ZifyNat String Bool Arith.
From Stdlib Require PrimFloat Uint63 SpecFloat FloatOps.
From Stdlib Require Import Lqa.
Import ListNotations.

Set Implicit Arguments.
Local Open Scope nat_scope.

(** ** Python exceptions and the computation monad *)

Inductive exn : Type :=
| ValueError (message : string)
| IndexError
| AttributeError
| ZeroDivisionError
| OverflowError.

Inductive result (A : Type) : Type :=
| Ok (a : A)
| Err (e : exn).
Arguments Ok {A} a.
Arguments Err {A} e.

Definition is_ValueError {A : Type} (r : result A) : bool :=
  match r with
  | Err (ValueError _) => true
  | _ => false
  end.

Definition is_Ok {A : Type} (r : result A) : bool :=
  match r with
  | Ok _ => true
  | Err _ => false
  end.

Definition rbind {A B : Type} (c : result A) (k : A -> result B) : result B :=
  match c with
  | Ok a => k a
  | Err e => Err e
  end.

(** ** Arithmetic interface *)

Class Number (num : Type) : Type := {
  lit : Z -> num;                 (* an [int] literal used as a number *)
  add : num -> num -> num;
  sub : num -> num -> num;
  mul : num -> num -> num;
  div : num -> num -> num;        (* [/] by a non-zero divisor *)
  pow : num -> Z -> result num;   (* [**] with an [int] exponent; may raise *)
  lt_float : num -> PrimFloat.float -> bool;  (* [<] against a [float] *)
  is_zero : num -> bool           (* [== 0] *)
}.

Declare Scope num_scope.
Delimit Scope num_scope with num.
Infix "+" := add : num_scope.
Infix "-" := sub : num_scope.
Infix "*" := mul : num_scope.
Infix "/" := div : num_scope.
Infix "**" := pow (at level 30, right associativity) : num_scope.

(** [a / b] where [b] is not a literal: Python raises [ZeroDivisionError]
    on a zero divisor. *)
Definition truediv {num : Type} `{Number num} (a b : num) : result num :=
  if is_zero b then Err ZeroDivisionError else Ok (a / b)%num.

(** IEEE 754 binary64, the [float] of Python.  An [int] literal is
    converted as Python converts a small [int]. *)
Definition float_lit (z : Z) : PrimFloat.float :=
  if (z <? 0)%Z
  then PrimFloat.opp (PrimFloat.of_uint63 (Uint63.of_Z (- z)))
  else PrimFloat.of_uint63 (Uint63.of_Z z).

(** The end of [float.__pow__]: an infinite result from a finite base is
    an [OverflowError]; a result that underflows is returned as it is. *)
Definition check_overflow (x r : PrimFloat.float) : result PrimFloat.float :=
  if PrimFloat.is_infinity r && PrimFloat.is_finite x
  then Err OverflowError
  else Ok r.

(** [x ** k] on a [float]: zero to a negative power is a
    [ZeroDivisionError]; the power is computed by multiplications, and one
    division when [k] is negative, which is the value of C's [pow] when the
    products are exact doubles, as in [10 ** -3] (elsewhere the two may
    differ in the last bit). *)
Definition float_pow (x : PrimFloat.float) (k : Z) : result PrimFloat.float :=
  match k with
  | Z0 => Ok PrimFloat.one
  | Zpos n => check_overflow x (Pos.iter (PrimFloat.mul x) PrimFloat.one n)
  | Zneg n =>
      if PrimFloat.eqb x PrimFloat.zero
      then Err ZeroDivisionError
      else check_overflow
             x (PrimFloat.div PrimFloat.one
                              (Pos.iter (PrimFloat.mul x) PrimFloat.one n))
  end.

(** [a ** b] on two [int] literals with [b < 0]: Python converts both to
    [float], whatever numbers the rest of the program computes with. *)
Definition int_pow_negative (a b : Z) : result PrimFloat.float :=
  float_pow (float_lit a) b.

(** The rational that a finite double is, exactly; [None] for an infinity
    or a NaN. *)
Definition Q_of_float (t : PrimFloat.float) : option Q :=
  match FloatOps.Prim2SF t with
  | SpecFloat.S754_zero _ => Some 0%Q
  | SpecFloat.S754_finite s m e =>
      let v := (inject_Z (Zpos m) * Qpower 2 e)%Q in
      Some (if s then Qopp v else v)
  | _ => None
  end.

(** [a < t] for a [Fraction] [a] and a [float] [t]: Python compares [a]
    with the exact value of [t]; nothing is below a NaN or minus infinity,
    everything is below plus infinity. *)
Definition Q_lt_float (a : Q) (t : PrimFloat.float) : bool :=
  match Q_of_float t with
  | Some q => negb (Qle_bool q a)
  | None => PrimFloat.ltb PrimFloat.zero t
  end.

(** [a ** k] on a [Fraction]: zero to a negative power is a
    [ZeroDivisionError]. *)
Definition Q_pow (a : Q) (k : Z) : result Q :=
  if (k <? 0)%Z && Qeq_bool a 0
  then Err ZeroDivisionError
  else Ok (Qpower a k).

#[export] Instance Number_Q : Number Q := {
  lit := inject_Z;
  add := Qplus;
  sub := Qminus;
  mul := Qmult;
  div := Qdiv;
  pow := Q_pow;
  lt_float := Q_lt_float;
  is_zero := fun a => Qeq_bool a 0
}.

#[export] Instance Number_float : Number PrimFloat.float := {
  lit := float_lit;
  add := PrimFloat.add;
  sub := PrimFloat.sub;
  mul := PrimFloat.mul;
  div := PrimFloat.div;
  pow := float_pow;
  lt_float := PrimFloat.ltb;
  is_zero := fun a => PrimFloat.eqb a PrimFloat.zero
}.

(** ** Random source

    The draws of the pseudo-random generator, as a fixed stream and a
    cursor; a call to [random] reads one draw and advances the cursor. *)

Record rng (num : Type) : Type := mk_rng {
  stream : nat -> num;
  cursor : nat
}.

Definition random {num : Type} (g : rng num) : num * rng num :=
  (stream g (cursor g), mk_rng (stream g) (S (cursor g))).

(** Computations that may read the random source and may raise. *)
Definition M (num A : Type) : Type := rng num -> result A * rng num.

Definition ret {num A : Type} (a : A) : M num A := fun g => (Ok a, g).

Definition raise {num A : Type} (e : exn) : M num A := fun g => (Err e, g).

Definition bind {num A B : Type} (c : M num A) (k : A -> M num B) : M num B :=
  fun g =>
    match c g with
    | (Ok a, g') => k a g'
    | (Err e, g') => (Err e, g')
    end.

Definition lift {num A : Type} (c : result A) : M num A := fun g => (c, g).

Declare Scope monad_scope.
Delimit Scope monad_scope with monad.
Notation "x <- c ;; k" := (bind c (fun x => k))
  (at level 61, c at next level, right associativity) : monad_scope.

Fixpoint mapM {num A B : Type} (f : A -> M num B) (l : list A) : M num (list B) :=
  match l with
  | [] => ret []
  | a :: l' => (b <- f a ;; bs <- mapM f l' ;; ret (b :: bs))%monad
  end.

(** ** Python sequence operations *)

Module Py.

(** [l[i]] for a list: negative indices count from the end, an index out
    of range raises [IndexError]. *)
Definition getitem {A : Type} (l : list A) (i : Z) : result A :=
  let n := Z.of_nat (List.length l) in
  let j := (if i <? 0 then i + n else i)%Z in
  if ((j <? 0) || (n <=? j))%Z then Err IndexError
  else match nth_error l (Z.to_nat j) with
       | Some a => Ok a
       | None => Err IndexError
       end.

(** A slice bound brought into [0, len], as [slice.indices] does for a
    positive step. *)
Definition clamp (len : nat) (i : Z) : nat :=
  let n := Z.of_nat len in
  let j := (if i <? 0 then i + n else i)%Z in
  Z.to_nat (Z.min n (Z.max 0 j)).

(** [range(start, stop, step)] for naturals and a positive step. *)
Definition range (start stop step : nat) : list nat :=
  map (fun k => start + k * step) (seq 0 ((stop - start + (step - 1)) / step)).

(** [l[start:stop:step]] for a positive step. *)
Definition slice {A : Type} (l : list A) (start stop : Z) (step : nat) : list A :=
  let len := List.length l in
  flat_map (fun i => match nth_error l i with Some a => [a] | None => [] end)
           (range (clamp len start) (clamp len stop) step).

(** [all(g)] for a generator [g] whose items are computed by [test]:
    stops at the first false item; an exception in [test] propagates. *)
Fixpoint all {A : Type} (test : A -> result bool) (l : list A) : result bool :=
  match l with
  | [] => Ok true
  | a :: l' => rbind (test a) (fun b => if b then all test l' else Ok false)
  end.

End Py.

(** ** The data model of the [Interval] module

    [Quadrature.py] imports [AnnotatedFunction], [Interval], [Method] and
    [Point] from the module [Interval]; what it uses of them is modelled
    here. *)

Module Point.
(** Modelled from the spec: the class [Point] of the [Interval] module, an
    (x, y) pair. *)
Record t (num : Type) : Type := mk { x : num; y : num }.
End Point.

Module Partition.
(** Modelled from the spec: the partitions of the [Interval] module, each
    with [start], [end] and the derived [length = end - start]. *)
Record t (num : Type) : Type := mk { start : num; end_ : num }.

(** Modelled from the spec: the derived attribute [length] of a partition
    of the [Interval] module. *)
Definition length {num : Type} `{Number num} (p : t num) : num :=
  (end_ p - start p)%num.
End Partition.

Module Interval.
(** Modelled from the spec: the class [Interval] of the [Interval] module,
    an ordered sequence of partitions covering [start, end]. *)
Record t (num : Type) : Type := mk {
  start : num;
  end_ : num;
  partitions : list (Partition.t num)
}.

(** Modelled from the spec: iteration over an [Interval] of the [Interval]
    module yields its partitions from left to right. *)
Definition iter {num : Type} (i : t num) : list (Partition.t num) :=
  partitions i.

(** Modelled from the spec: indexed access [interval[k]] of the [Interval]
    module, into the sequence of partitions.  The spec does not say what
    an index out of range does, and it excludes an interval without
    partitions; the [IndexError] of a list stands for that case here, and
    no result below rests on it. *)
Definition getitem {num : Type} (i : t num) (k : Z) : result (Partition.t num) :=
  Py.getitem (partitions i) k.
End Interval.

Module AnnotatedFunction.
(** Modelled from the spec: the class [AnnotatedFunction] of the
    [Interval] module, a function with an optional display string. *)
Record t (num : Type) : Type := mk {
  func : num -> num;
  string : option String.string
}.
End AnnotatedFunction.

Module Method.
(** Modelled from the spec: the class [Method] of the [Interval] module, a
    strategy that picks the sample point of a partition. *)
Inductive t : Type := Left | Right | Midpoint | Random.

(** Modelled from the spec: [Method.left()] of the [Interval] module, the
    method that picks the start of the partition. *)
Definition left : t := Left.

Definition deterministic (m : t) : bool :=
  match m with
  | Random => false
  | _ => true
  end.

Section Choose.
Context {num : Type} `{Number num}.

(** Modelled from the spec: [Method.choose] of the [Interval] module.
    [x] is the partition's start, its end, its midpoint, or a draw from
    [start, end); [y] is [f x].  [Random] on a partition of length zero is
    an invalid argument. *)
Definition choose (m : t) (f : num -> num) (p : Partition.t num)
  : M num (Point.t num) :=
  match m with
  | Left => let x := Partition.start p in ret (Point.mk x (f x))
  | Right => let x := Partition.end_ p in ret (Point.mk x (f x))
  | Midpoint =>
      let x := ((Partition.start p + Partition.end_ p) / lit 2)%num in
      ret (Point.mk x (f x))
  | Random =>
      if is_zero (Partition.length p)
      then raise (ValueError "Random needs a partition of non-zero length.")
      else fun g =>
        let (u, g') := random g in
        let x := (Partition.start p + Partition.length p * u)%num in
        (Ok (Point.mk x (f x)), g')
  end.
End Choose.
End Method.

(** ** [chunk_iter] *)

(** An item of a chunk: an element of the iterable, or the fill value [0]
    that [zip_longest] supplies once the iterable is exhausted. *)
Inductive padded (A : Type) : Type :=
| Item (a : A)
| Fill.
Arguments Item {A} a.
Arguments Fill {A}.

(** [zip_longest] over [chunk_size] references to one iterator: each tuple
    takes the next [chunk_size] items in turn; [cur] is the tuple under
    construction and [room] the number of items it still lacks.  When the
    iterator runs dry inside a tuple, the tuple is completed with the fill
    value; when it runs dry at the start of a tuple, iteration stops. *)
Fixpoint chunk_go {A : Type} (chunk_size : nat) (iters : list A)
         (cur : list (padded A)) (room : nat) : list (list (padded A)) :=
  match iters with
  | [] =>
      match cur with
      | [] => []
      | _ => [cur ++ repeat Fill room]
      end
  | a :: rest =>
      match room with
      | 0 => []
      | 1 => (cur ++ [Item a]) :: chunk_go chunk_size rest [] chunk_size
      | S room' => chunk_go chunk_size rest (cur ++ [Item a]) room'
      end
  end.

Definition chunk_iter {A : Type} (iters : list A) (chunk_size : nat)
  : list (list (padded A)) :=
  chunk_go chunk_size iters [] chunk_size.

(** ** The class [Quadrature] and its subclasses *)

Module Quadrature.
Record t (num : Type) : Type := mk {
  func : AnnotatedFunction.t num;
  interval : Interval.t num;
  method : Method.t
}.

(** [Quadrature.__init__] *)
Definition init {num : Type} (func : AnnotatedFunction.t num)
           (interval : Interval.t num) (method : Method.t) : t num :=
  mk func interval method.

(** The property [Quadrature.points]. *)
Definition points {num : Type} `{Number num} (self : t num)
  : M num (list (Point.t num)) :=
  mapM (Method.choose (method self) (AnnotatedFunction.func (func self)))
       (Interval.iter (interval self)).
End Quadrature.

Module Riemann.
Section Riemann.
Context {num : Type} `{Number num}.

Definition init (func : AnnotatedFunction.t num) (interval : Interval.t num)
           (method : Method.t) : Quadrature.t num :=
  Quadrature.init func interval method.

Definition points (self : Quadrature.t num) : M num (list (Point.t num)) :=
  Quadrature.points self.

Definition calc (self : Quadrature.t num) : M num num :=
  (pts <- points self ;;
   ret (fold_left
          (fun total pp =>
             (total + Partition.length (fst pp) * Point.y (snd pp))%num)
          (combine (Interval.iter (Quadrature.interval self)) pts)
          (lit 0)))%monad.
End Riemann.
End Riemann.

Module Trapezoid.
Section Trapezoid.
Context {num : Type} `{Number num}.

Definition init (func : AnnotatedFunction.t num) (interval : Interval.t num)
  : Quadrature.t num :=
  Quadrature.init func interval Method.left.

(** The same as [Quadrature.points], with an endpoint added. *)
Definition points (self : Quadrature.t num) : M num (list (Point.t num)) :=
  let x := Interval.end_ (Quadrature.interval self) in
  let y := AnnotatedFunction.func (Quadrature.func self) x in
  (pts <- Quadrature.points self ;;
   ret (pts ++ [Point.mk x y]))%monad.

Definition calc (self : Quadrature.t num) : M num num :=
  let f := AnnotatedFunction.func (Quadrature.func self) in
  ret (fold_left
         (fun total partition =>
            let h := Partition.length partition in
            let a := f (Partition.start partition) in
            let b := f (Partition.end_ partition) in
            (total + (a + b) / lit 2 * h)%num)
         (Interval.iter (Quadrature.interval self))
         (lit 0)).
End Trapezoid.
End Trapezoid.

Module Simpson.

Definition even_message : String.string :=
  "Simson's rule only works with an even number of partitions.".

Definition length_message : String.string :=
  "All partition lengths must be the same.".

(** The attribute [start] (resp. [end]) of a chunk item: the fill value
    [0] is an [int] and has no such attribute. *)
Definition attr_start {num : Type} (p : padded (Partition.t num)) : result num :=
  match p with
  | Item q => Ok (Partition.start q)
  | Fill => Err AttributeError
  end.

Definition attr_end {num : Type} (p : padded (Partition.t num)) : result num :=
  match p with
  | Item q => Ok (Partition.end_ q)
  | Fill => Err AttributeError
  end.

(** A [for] loop that appends one result per item and stops at the first
    exception. *)
Fixpoint for_append {A B : Type} (body : A -> result B) (l : list A)
  : result (list B) :=
  match l with
  | [] => Ok []
  | a :: l' =>
      rbind (body a) (fun b => rbind (for_append body l') (fun bs => Ok (b :: bs)))
  end.

Section Simpson.
Context {num : Type} `{Number num}.

(** The test of the generator in [__init__], for the partition [i]:
    [interval[0].length - i.length < 10**-3], where [10**-3] is a
    [float]. *)
Definition close_to_first (interval : Interval.t num) (i : Partition.t num)
  : result bool :=
  rbind (Interval.getitem interval 0)
        (fun first =>
           rbind (int_pow_negative 10 (-3))
                 (fun tolerance =>
                    Ok (lt_float (Partition.length first - Partition.length i)%num
                                 tolerance))).

(** [Simpson.__init__]: the instance, or the [ValueError] raised. *)
Definition init (func : AnnotatedFunction.t num) (interval : Interval.t num)
  : result (Quadrature.t num) :=
  if negb (List.length (Interval.partitions interval) mod 2 =? 0)
  then Err (ValueError even_message)
  else
    rbind (Py.all (close_to_first interval) (Interval.iter interval))
          (fun same =>
             if negb same
             then Err (ValueError length_message)
             else Ok (Quadrature.init func interval Method.left)).

(** The same as [Quadrature.points], with an endpoint added. *)
Definition points (self : Quadrature.t num) : M num (list (Point.t num)) :=
  let x := Interval.end_ (Quadrature.interval self) in
  let y := AnnotatedFunction.func (Quadrature.func self) x in
  (pts <- Quadrature.points self ;;
   ret (pts ++ [Point.mk x y]))%monad.

(** The body of the loop of [parabolas], for one chunk [(p0, p1)]. *)
Definition parabola (f : num -> num) (size : num)
           (chunk : list (padded (Partition.t num))) : result (num * num * num) :=
  match chunk with
  | [p0; p1] =>
      rbind (attr_start p0) (fun s0 =>
      let y0 := f s0 in
      rbind (attr_start p1) (fun s1 =>
      let y1 := f s1 in
      rbind (attr_end p1) (fun e1 =>
      let y2 := f e1 in
      rbind (size ** 2)%num (fun square =>
      rbind (truediv (y0 - lit 2 * y1 + y2) (lit 2 * square))%num (fun A =>
      rbind (truediv (y2 - y0) (lit 2 * size))%num (fun B =>
      let C := y1 in
      Ok (A, B, C)))))))
  | _ => Err (ValueError "wrong number of values to unpack (expected 2)")
  end.

Definition parabolas (self : Quadrature.t num) : M num (list (num * num * num)) :=
  let f := AnnotatedFunction.func (Quadrature.func self) in
  (first <- lift (Interval.getitem (Quadrature.interval self) 0) ;;
   let size := Partition.length first in
   lift (for_append (parabola f size)
                    (chunk_iter (Interval.iter (Quadrature.interval self)) 2)))%monad.

(** [Simpson.calc]: [area] is not the area until it is multiplied by the
    partition size over 3, once, at the end. *)
Definition calc (self : Quadrature.t num) : M num num :=
  (pts0 <- points self ;;
   p0 <- lift (Py.getitem pts0 0) ;;
   pts1 <- points self ;;
   pn <- lift (Py.getitem pts1 (-1)) ;;
   let area := (Point.y p0 + Point.y pn)%num in
   pts2 <- points self ;;
   let area :=
     fold_left (fun area point => (area + lit 4 * Point.y point)%num)
               (Py.slice pts2 1 (-1) 2) area in
   pts3 <- points self ;;
   let area :=
     fold_left (fun area point => (area + lit 2 * Point.y point)%num)
               (Py.slice pts3 2 (-1) 2) area in
   first <- lift (Interval.getitem (Quadrature.interval self) 0) ;;
   ret (area * Partition.length first / lit 3)%num)%monad.
End Simpson.
End Simpson.

(** ** Dynamic dispatch

    [quad.points] and [quad.calc()] on an object of one of the three
    concrete classes. *)

Inductive cls : Type := RiemannCls | TrapezoidCls | SimpsonCls.

Section Dispatch.
Context {num : Type} `{Number num}.

Definition points_of (c : cls) : Quadrature.t num -> M num (list (Point.t num)) :=
  match c with
  | RiemannCls => Riemann.points
  | TrapezoidCls => Trapezoid.points
  | SimpsonCls => Simpson.points
  end.

Definition calc_of (c : cls) : Quadrature.t num -> M num num :=
  match c with
  | RiemannCls => Riemann.calc
  | TrapezoidCls => Trapezoid.calc
  | SimpsonCls => Simpson.calc
  end.

(** The objects that the three constructors produce. *)
Inductive instance : cls -> Quadrature.t num -> Prop :=
| instance_Riemann func interval method :
    instance RiemannCls (Riemann.init func interval method)
| instance_Trapezoid func interval :
    instance TrapezoidCls (Trapezoid.init func interval)
| instance_Simpson func interval self :
    Simpson.init func interval = Ok self ->
    instance SimpsonCls self.

(** Two successive calls of [c], the second from the state the first left. *)
Definition twice {A : Type} (c : M num A) (g : rng num) : result A * result A :=
  let (r1, g1) := c g in
  let (r2, _) := c g1 in
  (r1, r2).

(** [c] gives the same result from every state of the random source and
    leaves that state as it found it. *)
Definition reads_no_draw {A : Type} (c : M num A) : Prop :=
  exists r, forall g, c g = (r, g).

(** No partition on which the [Random] method is invalid. *)
Definition can_choose (method : Method.t) (interval : Interval.t num) : Prop :=
  method = Method.Random ->
  Forall (fun p => is_zero (Partition.length p) = false)
         (Interval.partitions interval).

End Dispatch.

(** The number of partitions of the interval of [self]. *)
Definition partition_count {num : Type} (self : Quadrature.t num) : nat :=
  List.length (Interval.partitions (Quadrature.interval self)).

(** ** The rules as formulas over the rationals *)

Definition sum_Q (l : list Q) : Q := fold_right Qplus 0%Q l.

(** The sum over all partitions of [partition.length * point.y]. *)
Definition riemann_sum (parts : list (Partition.t Q)) (pts : list (Point.t Q)) : Q :=
  sum_Q (map (fun pp => (Partition.length (fst pp) * Point.y (snd pp))%Q)
             (combine parts pts)).

(** The sum over all partitions of [(f(start) + f(end))/2 * length]. *)
Definition trapezoid_sum (f : Q -> Q) (parts : list (Partition.t Q)) : Q :=
  sum_Q (map (fun p => ((f (Partition.start p) + f (Partition.end_ p)) / 2
                        * (Partition.end_ p - Partition.start p))%Q)
             parts).

(** The [i]-th of the y-values [ys]. *)
Definition y_at (ys : list Q) (i : nat) : Q := nth i ys 0%Q.

(** [y_0 + y_n + 4 * (sum of the odd-indexed y) + 2 * (sum of the
    even-indexed interior y)], the indices running over [0 .. n]. *)
Definition simpson_weighted (ys : list Q) (n : nat) : Q :=
  (y_at ys 0 + y_at ys n
   + 4 * sum_Q (map (y_at ys) (filter Nat.odd (seq 1 (n - 1))))
   + 2 * sum_Q (map (y_at ys) (filter Nat.even (seq 1 (n - 1)))))%Q.

(** Composite Simpson's rule for [n] partitions of common length [h]. *)
Definition simpson_rule (h : Q) (ys : list Q) (n : nat) : Q :=
  (h / 3 * simpson_weighted ys n)%Q.

(** The closed-form coefficients of the parabola through three y-values
    sampled at distance [h]. *)
Definition parabola_A (h y0 y1 y2 : Q) : Q := ((y0 - 2 * y1 + y2) / (2 * (h * h)))%Q.
Definition parabola_B (h y0 y2 : Q) : Q := ((y2 - y0) / (2 * h))%Q.

(** The three y-values sampled on the pair of partitions number [2k] and
    [2k+1]: at the start of the first, at the start of the second and at
    the end of the second. *)
Definition pair_ys (f : Q -> Q) (parts : list (Partition.t Q)) (k : nat) : Q * Q * Q :=
  let d := Partition.mk 0%Q 0%Q in
  let p0 := nth (2 * k) parts d in
  let p1 := nth (2 * k + 1) parts d in
  (f (Partition.start p0), f (Partition.start p1), f (Partition.end_ p1)).

(** The triple [t] is what the closed form gives for the y-values [ys]. *)
Definition is_parabola (h : Q) (ys : Q * Q * Q) (t : Q * Q * Q) : Prop :=
  let '(y0, y1, y2) := ys in
  let '(A, B, C) := t in
  (A == parabola_A h y0 y1 y2 /\ B == parabola_B h y0 y2 /\ C == y1)%Q.

(** The point that [Method.left] picks. *)
Definition left_point {num : Type} (f : num -> num) (p : Partition.t num) : Point.t num :=
  Point.mk (Partition.start p) (f (Partition.start p)).

(** Modelled from the spec: the invariants of an [Interval] of the
    [Interval] module.  [chain a parts b]: the partitions are ordered and
    contiguous, the first starts at [a] and the last ends at [b]. *)
Fixpoint chain (a : Q) (parts : list (Partition.t Q)) (b : Q) : Prop :=
  match parts with
  | [] => (a == b)%Q
  | p :: rest =>
      (Partition.start p == a)%Q
      /\ (Partition.start p <= Partition.end_ p)%Q
      /\ chain (Partition.end_ p) rest b
  end.

(** Modelled from the spec: an [Interval] of the [Interval] module has
    [start < end] and its partitions cover [start, end]. *)
Definition valid_interval (i : Interval.t Q) : Prop :=
  (Interval.start i < Interval.end_ i)%Q
  /\ chain (Interval.start i) (Interval.partitions i) (Interval.end_ i).

(** ** Concrete inputs *)

Section Inputs.
Context {num : Type} `{Number num}.

(** The partitions between the consecutive breakpoints [a], [b1], [b2], ... *)
Fixpoint cut_parts (a : Z) (bs : list Z) : list (Partition.t num) :=
  match bs with
  | [] => []
  | b :: rest => Partition.mk (lit a) (lit b) :: cut_parts b rest
  end.

(** The interval from [a] to the last breakpoint, cut at the breakpoints. *)
Definition cut (a : Z) (bs : list Z) : Interval.t num :=
  Interval.mk (lit a) (lit (last bs a)) (cut_parts a bs).

(** [f(x) = x] and [f(x) = x^2]. *)
Definition f_id : AnnotatedFunction.t num :=
  AnnotatedFunction.mk (fun x => x) (Some "x"%string).

Definition f_sq : AnnotatedFunction.t num :=
  AnnotatedFunction.mk (fun x => (x * x)%num) (Some "x^2"%string).

(** A random source whose draws are all [0]. *)
Definition g0 : rng num := mk_rng (fun _ => lit 0) 0.

End Inputs.

(** [0, 2] in two partitions of length 1. *)
Definition I02 : Interval.t Q := cut 0 [1; 2]%Z.

(** [0, 3] in three partitions of length 1. *)
Definition I03 : Interval.t Q := cut 0 [1; 2; 3]%Z.

(** [0, 3] cut at 1: the second partition is longer than the first by 1. *)
Definition I013 : Interval.t Q := cut 0 [1; 3]%Z.

(** [0, 1] as a single partition. *)
Definition I01 : Interval.t Q := cut 0 [1]%Z.

(** [0, 2] in two partitions of length 1, and [0, 3] cut at 1, in doubles. *)
Definition F02 : Interval.t PrimFloat.float := cut 0 [1; 2]%Z.
Definition F013 : Interval.t PrimFloat.float := cut 0 [1; 3]%Z.

(** ** Notions used to state what the code computes *)

(** The elements of a chunk, the fill values dropped. *)
Definition unpad {A : Type} (c : list (padded A)) : list A :=
  flat_map (fun x => match x with Item a => [a] | Fill => [] end) c.

(** The number of fill values needed to complete [n] items to a multiple
    of [chunk_size]. *)
Definition fill_count (chunk_size n : nat) : nat :=
  (chunk_size - n mod chunk_size) mod chunk_size.

(** The value at [t] of the parabola with the coefficients [(A, B, C)],
    as [Simpson.graph] draws it: [A*t**2 + B*t + C]. *)
Definition parabola_eval (coeffs : Q * Q * Q) (t : Q) : Q :=
  let '(A, B, C) := coeffs in (A * (t * t) + B * t + C)%Q.

(** The integral of that parabola over [-h, h]. *)
Definition parabola_area (h : Q) (coeffs : Q * Q * Q) : Q :=
  let '(A, B, C) := coeffs in (2 * A * (h * h * h) / 3 + 2 * C * h)%Q.

(** [0, 1] cut at 0: the first partition has length zero. *)
Definition I001 : Interval.t Q := cut 0 [0; 1]%Z.

(** The x-coordinate that a method picks in a partition, [u] being the
    random draw that the [Random] method reads. *)
Definition abscissa (m : Method.t) (p : Partition.t Q) (u : Q) : Q :=
  match m with
  | Method.Left => Partition.start p
  | Method.Right => Partition.end_ p
  | Method.Midpoint => ((Partition.start p + Partition.end_ p) / 2)%Q
  | Method.Random => (Partition.start p + Partition.length p * u)%Q
  end.

(** The sum of [length * f(x)] over the partitions, [x] picked by the
    deterministic method [m]. *)
Definition riemann_rule (m : Method.t) (f : Q -> Q) (parts : list (Partition.t Q)) : Q :=
  sum_Q (map (fun p => (Partition.length p * f (abscissa m p 0))%Q) parts).

(** [f] takes equal rationals to equal rationals. *)
Definition respects_Qeq (f : Q -> Q) : Prop :=
  forall x y, (x == y)%Q -> (f x == f y)%Q.

(** The polynomial [c3*x^3 + c2*x^2 + c1*x + c0] and the integral of it
    from 0 to [x]. *)
Definition cubic (c3 c2 c1 c0 x : Q) : Q :=
  (c3 * (x * x * x) + c2 * (x * x) + c1 * x + c0)%Q.

Definition cubic_primitive (c3 c2 c1 c0 x : Q) : Q :=
  (c3 * (x * x * x * x) / 4 + c2 * (x * x * x) / 3 + c1 * (x * x) / 2 + c0 * x)%Q.

(** The area between the x-axis and the polyline through the points. *)
Fixpoint polyline_area (pts : list (Point.t Q)) : Q :=
  match pts with
  | p :: ((q :: _) as rest) =>
      ((Point.y p + Point.y q) / 2 * (Point.x q - Point.x p) + polyline_area rest)%Q
  | _ => 0%Q
  end.

(** The [i]-th point of the grid of step [h] that starts at [a]. *)
Definition grid (a h : Q) (i : nat) : Q := (a + inject_Z (Z.of_nat i) * h)%Q.

(** The y-values of the points of a [Trapezoid] or a [Simpson]: the
    function at the start of every partition, then at [b]. *)
Definition endpoint_ys (f : Q -> Q) (parts : list (Partition.t Q)) (b : Q) : list Q :=
  map (fun p => f (Partition.start p)) parts ++ [f b].

(** ** Notions used for the tolerance, the powers and the doubles *)

(** The double nearest to 1/1000, written [0.001] or [1e-3] in Python; it
    is the value of [10**-3]. *)
Definition double_1e_3 : PrimFloat.float :=
  PrimFloat.div (float_lit 1) (float_lit 1000).

(** The exact value of that double: [4611686018427388 / 2^62], a little
    above 1/1000. *)
Definition tol_Q : Q := 4611686018427388 # 4611686018427387904.

(** The test of [Simpson.__init__] on the partition [p], as a boolean:
    the difference with the first partition's length, as the arithmetic
    computes it, is below the double [10**-3]. *)
Definition within_tolerance {num : Type} `{Number num}
           (interval : Interval.t num) (p : Partition.t num) : bool :=
  match hd_error (Interval.partitions interval) with
  | Some first =>
      lt_float (Partition.length first - Partition.length p)%num double_1e_3
  | None => true
  end.

(** The triple that the loop of [parabolas] appends for the pair of
    partitions [(p0, p1)], [square] being the value of [size**2]. *)
Definition coefficients {num : Type} `{Number num} (f : num -> num)
           (size square : num) (p0 p1 : Partition.t num) : num * num * num :=
  let y0 := f (Partition.start p0) in
  let y1 := f (Partition.start p1) in
  let y2 := f (Partition.end_ p1) in
  ((y0 - lit 2 * y1 + y2) / (lit 2 * square),
   (y2 - y0) / (lit 2 * size),
   y1)%num.


(** The double [2^k]. *)
Definition two_pow (k : Z) : PrimFloat.float := FloatOps.Z.ldexp PrimFloat.one k.

(** In doubles: [-0.001, 2^-64] cut at 0; the lengths are [0.001] and
    [2^-64]. *)
Definition F_rounding : Interval.t PrimFloat.float :=
  Interval.mk (PrimFloat.opp double_1e_3) (two_pow (-64))
    [Partition.mk (PrimFloat.opp double_1e_3) (float_lit 0);
     Partition.mk (float_lit 0) (two_pow (-64))].

(** In doubles: two partitions of length [2^-600], and two partitions of
    length [2^600]. *)
Definition F_tiny : Interval.t PrimFloat.float :=
  Interval.mk (float_lit 0) (two_pow (-599))
    [Partition.mk (float_lit 0) (two_pow (-600));
     Partition.mk (two_pow (-600)) (two_pow (-599))].

Definition F_huge : Interval.t PrimFloat.float :=
  Interval.mk (float_lit 0) (two_pow 601)
    [Partition.mk (float_lit 0) (two_pow 600);
     Partition.mk (two_pow 600) (two_pow 601)].


(** [0, 3] cut at 2: the second partition is shorter than the first by 1. *)
Definition I023 : Interval.t Q := cut 0 [2; 3]%Z.

(** ** Results about the monad and the sequence operations *)

(** [lia] with division and remainder by a constant. *)
Ltac dlia := zify; Z.to_euclidean_division_equations; lia.

(** Unfolds the arithmetic of the instance [Number_Q]. *)
Ltac Qops := cbn [add sub mul div lit pow is_zero Number_Q] in *.

Lemma mod2_odd (n : nat) : n mod 2 = Nat.b2n (Nat.odd n).
Proof. rewrite <- Nat.bit0_mod. unfold Nat.b2n. rewrite Nat.bit0_odd. reflexivity. Qed.

Lemma mod2_even (n : nat) : (n mod 2 =? 0) = Nat.even n.
Proof.
  rewrite mod2_odd, <- Nat.negb_even.
  destruct (Nat.even n); reflexivity.
Qed.

Section Generic.
Context {num : Type} `{Number num}.

Lemma getitem_head (A : Type) (a : A) (l : list A) :
  Py.getitem (a :: l) 0 = Ok a.
Proof.
  unfold Py.getitem.
  change (0 <? 0)%Z with false. cbv iota.
  replace (Z.of_nat (List.length (a :: l)) <=? 0)%Z with false.
  - reflexivity.
  - symmetry. apply Z.leb_gt. simpl List.length. lia.
Qed.

Lemma getitem_last (A : Type) (l : list A) (a : A) :
  Py.getitem (l ++ [a]) (-1) = Ok a.
Proof.
  unfold Py.getitem.
  change (-1 <? 0)%Z with true. cbv iota.
  rewrite length_app. simpl List.length.
  replace (-1 + Z.of_nat (List.length l + 1))%Z with (Z.of_nat (List.length l)) by lia.
  replace (Z.of_nat (List.length l) <? 0)%Z with false
    by (symmetry; apply Z.ltb_ge; lia).
  replace (Z.of_nat (List.length l + 1) <=? Z.of_nat (List.length l))%Z with false
    by (symmetry; apply Z.leb_gt; lia).
  rewrite Nat2Z.id. cbn [orb].
  rewrite nth_error_app2 by lia.
  rewrite Nat.sub_diag. reflexivity.
Qed.

(** [Method.left] reads no random draw and never raises. *)
Lemma points_left (f : AnnotatedFunction.t num) (i : Interval.t num) (g : rng num) :
  Quadrature.points (Quadrature.mk f i Method.Left) g
  = (Ok (map (left_point (AnnotatedFunction.func f)) (Interval.partitions i)), g).
Proof.
  unfold Quadrature.points, Interval.iter. cbn [Quadrature.method Quadrature.func Quadrature.interval].
  induction (Interval.partitions i) as [|p parts IH]; [reflexivity|].
  cbn [mapM map]. unfold bind at 1. cbn [Method.choose ret].
  unfold bind at 1. rewrite IH. reflexivity.
Qed.

(** A deterministic method reads no random draw and never raises: the
    points do not depend on the random source. *)
Lemma points_deterministic (f : AnnotatedFunction.t num) (i : Interval.t num)
      (m : Method.t) :
  Method.deterministic m = true ->
  exists pts, forall g, Quadrature.points (Quadrature.mk f i m) g = (Ok pts, g).
Proof.
  intros Hm.
  unfold Quadrature.points, Interval.iter. cbn [Quadrature.method Quadrature.func Quadrature.interval].
  induction (Interval.partitions i) as [|p parts [pts IH]].
  - exists []. reflexivity.
  - destruct m; try discriminate Hm.
    all: eexists; intros g; cbn [mapM]; unfold bind at 1; cbn [Method.choose ret];
      unfold bind at 1; rewrite IH; reflexivity.
Qed.

(** Whatever the method, the points that come out are one per partition. *)
Lemma points_length (q : Quadrature.t num) (g g' : rng num) (pts : list (Point.t num)) :
  Quadrature.points q g = (Ok pts, g') ->
  List.length pts = partition_count q.
Proof.
  unfold Quadrature.points, partition_count, Interval.iter.
  generalize (Method.choose (Quadrature.method q)
                            (AnnotatedFunction.func (Quadrature.func q))).
  intros c. revert g pts.
  induction (Interval.partitions (Quadrature.interval q)) as [|p parts IH];
    intros g pts Hrun.
  - cbn in Hrun. inversion Hrun. reflexivity.
  - cbn [mapM] in Hrun. unfold bind at 1 in Hrun.
    destruct (c p g) as [[pt|e] g1]; [|discriminate Hrun].
    unfold bind at 1 in Hrun.
    destruct (mapM c parts g1) as [[pts'|e] g2] eqn:E; [|discriminate Hrun].
    cbn in Hrun. inversion Hrun; subst. cbn [List.length].
    f_equal. eapply IH. exact E.
Qed.

End Generic.

Section GenericClaims.
Context {num : Type} `{Number num}.

Lemma points_total (q : Quadrature.t num) (g : rng num) :
  can_choose (Quadrature.method q) (Quadrature.interval q) ->
  exists pts g', Quadrature.points q g = (Ok pts, g').
Proof.
  unfold can_choose, Quadrature.points, Interval.iter.
  destruct q as [f i m]. cbn [Quadrature.method Quadrature.func Quadrature.interval].
  intros Hc. revert g.
  induction (Interval.partitions i) as [|p parts IH]; intros g.
  - exists [], g. reflexivity.
  - assert (Hparts : m = Method.Random ->
                     Forall (fun p => is_zero (Partition.length p) = false) parts).
    { intros Hm. specialize (Hc Hm). inversion Hc; assumption. }
    assert (Hp : exists pt g1,
               Method.choose m (AnnotatedFunction.func f) p g = (Ok pt, g1)).
    { destruct m; try (eexists; eexists; reflexivity).
      specialize (Hc eq_refl). inversion Hc as [|? ? Hz _]; subst.
      cbn [Method.choose]. rewrite Hz. eexists; eexists; reflexivity. }
    destruct Hp as (pt & g1 & Hp).
    destruct (IH Hparts g1) as (pts & g2 & Hrest).
    exists (pt :: pts), g2.
    cbn [mapM]. unfold bind at 1. rewrite Hp.
    unfold bind at 1. rewrite Hrest. reflexivity.
Qed.

Lemma init_method (f : AnnotatedFunction.t num) (i : Interval.t num)
      (s : Quadrature.t num) :
  Simpson.init f i = Ok s -> s = Quadrature.mk f i Method.Left.
Proof.
  unfold Simpson.init.
  destruct (negb _); [discriminate|].
  destruct (Py.all _ _) as [[|]|e]; cbn; try discriminate.
  intros E. inversion E. reflexivity.
Qed.

Lemma endpoint_points (q : Quadrature.t num) (g g' : rng num)
      (pts : list (Point.t num)) :
  Quadrature.points q g = (Ok pts, g') ->
  Simpson.points q g
  = (Ok (pts ++ [Point.mk (Interval.end_ (Quadrature.interval q))
                          (AnnotatedFunction.func (Quadrature.func q)
                             (Interval.end_ (Quadrature.interval q)))]), g').
Proof.
  intros Hp. unfold Simpson.points, bind. rewrite Hp. reflexivity.
Qed.

End GenericClaims.

(** ** Construction of a [Simpson] instance *)

(** C4: for every function and every interval whose number of partitions is
    odd, [Simpson.__init__] raises the [ValueError] (the spec's
    InvalidArgument) whose message names the even-partition-count
    precondition, and returns no instance. *)
Theorem Simpson_init_odd_count
        (num : Type) (N : Number num)
        (func : AnnotatedFunction.t num) (interval : Interval.t num) :
  Nat.odd (List.length (Interval.partitions interval)) = true ->
  Simpson.init func interval
  = Err (ValueError "Simson's rule only works with an even number of partitions.")
  /\ is_Ok (Simpson.init func interval) = false.
Proof.
  intros Hodd.
  assert (E : Simpson.init func interval = Err (ValueError Simpson.even_message)).
  { unfold Simpson.init.
    rewrite mod2_even, <- Nat.negb_odd, Hodd. reflexivity. }
  rewrite E. split; reflexivity.
Qed.

Lemma Simpson_init_odd_count_witness :
  Nat.odd (List.length (Interval.partitions I03)) = true
  /\ Simpson.init f_sq I03
     = Err (ValueError "Simson's rule only works with an even number of partitions.").
Proof.
  split; [reflexivity|].
  apply (Simpson_init_odd_count Number_Q f_sq I03). reflexivity.
Defined.

(** ** The number of points *)

(** C7: on an instance over [n] partitions, [points] of a [Trapezoid] or a
    [Simpson] is the left point of every partition followed by the point
    at the end of the interval, [n+1] points; [points] of a [Riemann] has
    exactly [n] points. *)
Theorem points_count
        (num : Type) (N : Number num)
        (c : cls) (self : Quadrature.t num) (g : rng num) :
  instance c self ->
  can_choose (Quadrature.method self) (Quadrature.interval self) ->
  exists pts g',
    points_of c self g = (Ok pts, g')
    /\ match c with
       | RiemannCls => List.length pts = partition_count self
       | TrapezoidCls | SimpsonCls =>
           let f := AnnotatedFunction.func (Quadrature.func self) in
           let b := Interval.end_ (Quadrature.interval self) in
           pts = map (left_point f) (Interval.partitions (Quadrature.interval self))
                 ++ [Point.mk b (f b)]
           /\ List.length pts = S (partition_count self)
       end.
Proof.
  intros Hinst Hc.
  destruct Hinst as [f i m | f i | f i s Hs].
  - destruct (points_total (Riemann.init f i m) g Hc) as (pts & g' & Hp).
    exists pts, g'. split; [exact Hp|].
    eapply points_length. exact Hp.
  - eexists; exists g. split.
    + apply endpoint_points. apply points_left.
    + cbn. split; [reflexivity|].
      rewrite length_app, length_map. unfold partition_count. cbn. lia.
  - apply init_method in Hs. subst s.
    eexists; exists g. split.
    + apply endpoint_points. apply points_left.
    + cbn. split; [reflexivity|].
      rewrite length_app, length_map. unfold partition_count. cbn. lia.
Qed.

Lemma points_count_witness :
  exists pts g',
    Riemann.points (Riemann.init f_id I03 Method.Random) g0 = (Ok pts, g')
    /\ List.length pts = 3.
Proof.
  apply (points_count (c := RiemannCls) (self := Riemann.init f_id I03 Method.Random) g0).
  - apply instance_Riemann.
  - intros _. repeat constructor.
Defined.

(** ** Repeated calls *)

Section Repeat.
Context {num : Type} `{Number num}.

Lemma reads_no_draw_twice (A : Type) (c : M num A) (g : rng num) :
  reads_no_draw c -> fst (twice c g) = snd (twice c g).
Proof.
  intros [r Hr]. unfold twice. rewrite !Hr. reflexivity.
Qed.

Lemma reads_no_draw_bind (A B : Type) (c : M num A) (k : A -> M num B) :
  reads_no_draw c -> (forall a, reads_no_draw (k a)) -> reads_no_draw (bind c k).
Proof.
  intros [r Hr] Hk. destruct r as [a|e].
  - destruct (Hk a) as [rb Hb]. exists rb. intros g.
    unfold bind. rewrite Hr. apply Hb.
  - exists (Err e). intros g. unfold bind. rewrite Hr. reflexivity.
Qed.

Lemma reads_no_draw_ret (A : Type) (a : A) : reads_no_draw (@ret num A a).
Proof. exists (Ok a). reflexivity. Qed.

Lemma reads_no_draw_lift (A : Type) (r : result A) : reads_no_draw (@lift num A r).
Proof. exists r. reflexivity. Qed.

Lemma reads_no_draw_points (q : Quadrature.t num) :
  Method.deterministic (Quadrature.method q) = true ->
  reads_no_draw (Quadrature.points q).
Proof.
  destruct q as [f i m]. intros Hm.
  destruct (points_deterministic f i m Hm) as [pts Hp].
  exists (Ok pts). exact Hp.
Qed.

Lemma reads_no_draw_endpoint (q : Quadrature.t num) :
  Method.deterministic (Quadrature.method q) = true ->
  reads_no_draw (Simpson.points q).
Proof.
  intros Hm. unfold Simpson.points.
  apply reads_no_draw_bind; [apply reads_no_draw_points, Hm|].
  intros; apply reads_no_draw_ret.
Qed.

Lemma reads_no_draw_points_of (c : cls) (q : Quadrature.t num) :
  Method.deterministic (Quadrature.method q) = true ->
  reads_no_draw (points_of c q).
Proof.
  intros Hm. destruct c.
  - apply reads_no_draw_points, Hm.
  - apply reads_no_draw_endpoint, Hm.
  - apply reads_no_draw_endpoint, Hm.
Qed.

Lemma reads_no_draw_calc_of (c : cls) (q : Quadrature.t num) :
  Method.deterministic (Quadrature.method q) = true ->
  reads_no_draw (calc_of c q).
Proof.
  intros Hm. destruct c; cbn [calc_of].
  - unfold Riemann.calc, Riemann.points.
    apply reads_no_draw_bind; [apply reads_no_draw_points, Hm|].
    intros; apply reads_no_draw_ret.
  - apply reads_no_draw_ret.
  - unfold Simpson.calc.
    repeat (first [ apply reads_no_draw_ret
                  | apply reads_no_draw_lift
                  | apply reads_no_draw_endpoint, Hm
                  | apply reads_no_draw_bind; [|intros ?] ]).
Qed.

End Repeat.

(** C10: on an instance with a deterministic method ([Left], [Right] or
    [Midpoint]), reading [points] twice gives the same list and calling
    [calc()] twice gives the same result; neither reads the random source,
    and the instance, a value that no operation returns changed, is the
    same before and after. *)
Theorem repeated_calls_agree
        (num : Type) (N : Number num)
        (c : cls) (self : Quadrature.t num) (g : rng num) :
  instance c self ->
  Method.deterministic (Quadrature.method self) = true ->
  fst (twice (points_of c self) g) = snd (twice (points_of c self) g)
  /\ fst (twice (calc_of c self) g) = snd (twice (calc_of c self) g)
  /\ snd (points_of c self g) = g
  /\ snd (calc_of c self g) = g
  /\ (exists pts, forall g1, fst (points_of c self g1) = Ok pts).
Proof.
  intros _ Hm.
  pose proof (reads_no_draw_points_of c self Hm) as Hp.
  pose proof (reads_no_draw_calc_of c self Hm) as Hc.
  split; [apply reads_no_draw_twice, Hp|].
  split; [apply reads_no_draw_twice, Hc|].
  destruct Hp as [rp Hp], Hc as [rc Hc].
  split; [rewrite Hp; reflexivity|].
  split; [rewrite Hc; reflexivity|].
  assert (Hok : exists pts, rp = Ok pts).
  { destruct self as [f i m].
    destruct (points_deterministic f i m Hm) as [pts Hpts].
    destruct c; cbn [points_of] in Hp.
    - exists pts. specialize (Hp g). unfold Riemann.points in Hp.
      rewrite Hpts in Hp. inversion Hp. reflexivity.
    - eexists. specialize (Hp g).
      unfold Trapezoid.points, bind in Hp. rewrite Hpts in Hp.
      inversion Hp. reflexivity.
    - eexists. specialize (Hp g).
      unfold Simpson.points, bind in Hp. rewrite Hpts in Hp.
      inversion Hp. reflexivity. }
  destruct Hok as [pts ->]. exists pts. intros g1. rewrite Hp. reflexivity.
Qed.

Lemma repeated_calls_agree_witness :
  fst (twice (Riemann.calc (Riemann.init f_id I02 Method.Midpoint)) g0)
  = snd (twice (Riemann.calc (Riemann.init f_id I02 Method.Midpoint)) g0).
Proof.
  apply (repeated_calls_agree (c := RiemannCls)
                              (self := Riemann.init f_id I02 Method.Midpoint) g0).
  - apply instance_Riemann.
  - reflexivity.
Defined.

(** With the [Random] method two readings of [points] need not agree. *)
Lemma random_points_can_differ :
  let g := mk_rng (fun k => inject_Z (Z.of_nat k) / 2)%Q 0 in
  fst (twice (Riemann.points (Riemann.init f_id I01 Method.Random)) g)
  <> snd (twice (Riemann.points (Riemann.init f_id I01 Method.Random)) g).
Proof.
  vm_compute. discriminate.
Qed.

(** ** Slices and index ranges *)

Lemma range_bound (a b k : nat) : In k (Py.range a b 2) -> k < b.
Proof.
  unfold Py.range. intros Hin.
  apply in_map_iff in Hin. destruct Hin as (j & <- & Hj).
  apply in_seq in Hj. dlia.
Qed.

(** The odd numbers of [1 .. m] are [range(1, m+1, 2)]. *)
Lemma odd_indices (m : nat) :
  filter Nat.odd (seq 1 m) = Py.range 1 (S m) 2.
Proof.
  unfold Py.range.
  induction m as [|m IH]; [reflexivity|].
  rewrite seq_S, filter_app, IH. cbn [filter].
  destruct (Nat.odd (1 + m)) eqn:E.
  - apply Nat.odd_spec in E. destruct E as [j Hj].
    replace ((S (S m) - 1 + (2 - 1)) / 2) with (S ((S m - 1 + (2 - 1)) / 2)) by dlia.
    rewrite seq_S, map_app. cbn [map]. do 2 f_equal. dlia.
  - assert (E' : Nat.even (1 + m) = true)
      by (rewrite <- Nat.negb_odd, E; reflexivity).
    apply Nat.even_spec in E'. destruct E' as [j Hj].
    replace ((S (S m) - 1 + (2 - 1)) / 2) with ((S m - 1 + (2 - 1)) / 2) by dlia.
    rewrite app_nil_r. reflexivity.
Qed.

(** The even numbers of [1 .. m] are [range(2, m+1, 2)]. *)
Lemma even_indices (m : nat) :
  filter Nat.even (seq 1 m) = Py.range 2 (S m) 2.
Proof.
  unfold Py.range.
  induction m as [|m IH]; [reflexivity|].
  rewrite seq_S, filter_app, IH. cbn [filter].
  destruct (Nat.even (1 + m)) eqn:E.
  - apply Nat.even_spec in E. destruct E as [j Hj].
    replace ((S (S m) - 2 + (2 - 1)) / 2) with (S ((S m - 2 + (2 - 1)) / 2)) by dlia.
    rewrite seq_S, map_app. cbn [map]. do 2 f_equal. dlia.
  - assert (E' : Nat.odd (1 + m) = true)
      by (rewrite <- Nat.negb_even, E; reflexivity).
    apply Nat.odd_spec in E'. destruct E' as [j Hj].
    replace ((S (S m) - 2 + (2 - 1)) / 2) with ((S m - 2 + (2 - 1)) / 2) by dlia.
    rewrite app_nil_r. reflexivity.
Qed.

Lemma clamp_nat (len a : nat) : a <= len -> Py.clamp len (Z.of_nat a) = a.
Proof.
  intros Ha. unfold Py.clamp.
  replace (Z.of_nat a <? 0)%Z with false by (symmetry; apply Z.ltb_ge; lia).
  lia.
Qed.

Lemma clamp_minus_one (len : nat) : Py.clamp (S len) (-1) = len.
Proof.
  unfold Py.clamp. change (-1 <? 0)%Z with true. cbv iota. lia.
Qed.

(** [l[a:-1:2]] lists the items of [l] at the indices [range(a, len-1, 2)]. *)
Lemma slice_interior (A : Type) (d : A) (l : list A) (n a : nat) :
  List.length l = S n -> a <= S n ->
  Py.slice l (Z.of_nat a) (-1) 2 = map (fun k => nth k l d) (Py.range a n 2).
Proof.
  intros Hlen Ha. unfold Py.slice.
  rewrite Hlen, clamp_nat by exact Ha. rewrite clamp_minus_one.
  assert (Hb : forall k, In k (Py.range a n 2) -> k < List.length l).
  { intros k Hk. apply range_bound in Hk. lia. }
  induction (Py.range a n 2) as [|k ks IH]; [reflexivity|].
  cbn [flat_map map].
  rewrite (nth_error_nth' l d) by (apply Hb; left; reflexivity).
  cbn [app]. f_equal. apply IH. intros j Hj. apply Hb. right. exact Hj.
Qed.

(** ** Sums over the rationals *)

(** A loop [total += w x] computes the sum of the [w x]. *)
Lemma fold_left_sum (A : Type) (w : A -> Q) (l : list A) (a : Q) :
  (fold_left (fun total x => total + w x) l a == a + sum_Q (map w l))%Q.
Proof.
  revert a. induction l as [|x l IH]; intros a; cbn [fold_left map sum_Q fold_right].
  - ring.
  - rewrite IH. unfold sum_Q. ring.
Qed.

Lemma sum_Q_scale (A : Type) (c : Q) (w : A -> Q) (l : list A) :
  (sum_Q (map (fun x => c * w x) l) == c * sum_Q (map w l))%Q.
Proof.
  induction l as [|x l IH]; cbn [map sum_Q fold_right].
  - ring.
  - unfold sum_Q in IH. rewrite IH. ring.
Qed.

(** ** [Riemann.calc] *)

Lemma bind_run (num A B : Type) (c : M num A) (k : A -> M num B)
      (g g' : rng num) (a : A) :
  c g = (Ok a, g') -> bind c k g = k a g'.
Proof. intros E. unfold bind. rewrite E. reflexivity. Qed.

(** C2: [Riemann.calc()] returns the sum, over all partitions, of the
    partition's length times the y of the point that the method chose for
    it; on [f(x) = x] over [[0, 2]] in two partitions it is 1 with the
    [Left] method and 3 with the [Right] method. *)
Theorem Riemann_calc_sum :
  (forall (func : AnnotatedFunction.t Q) (interval : Interval.t Q)
          (method : Method.t) (g g' : rng Q) (pts : list (Point.t Q)),
      Riemann.points (Riemann.init func interval method) g = (Ok pts, g') ->
      exists v,
        Riemann.calc (Riemann.init func interval method) g = (Ok v, g')
        /\ (v == riemann_sum (Interval.partitions interval) pts)%Q)
  /\ (forall g, Riemann.calc (Riemann.init f_id I02 Method.Left) g = (Ok 1%Q, g))
  /\ (forall g, Riemann.calc (Riemann.init f_id I02 Method.Right) g = (Ok 3%Q, g)).
Proof.
  split; [|split; intros g; reflexivity].
  intros func interval method g g' pts Hpts.
  eexists. split.
  - unfold Riemann.calc. rewrite (@bind_run _ _ _ _ _ _ _ _ Hpts). reflexivity.
  - unfold riemann_sum, Interval.iter. Qops.
    cbn [Riemann.init Quadrature.init Quadrature.interval].
    rewrite (fold_left_sum
               (fun pp => (Partition.length (fst pp) * Point.y (snd pp))%Q)).
    ring.
Qed.

Lemma Riemann_calc_sum_witness :
  exists v,
    Riemann.calc (Riemann.init f_sq I03 Method.Midpoint) g0 = (Ok v, g0)
    /\ (v == 35 # 4)%Q.
Proof.
  destruct (proj1 Riemann_calc_sum f_sq I03 Method.Midpoint g0 g0 _ eq_refl)
    as (v & Hrun & Hv).
  exists v. split; [exact Hrun|].
  rewrite Hv. reflexivity.
Defined.

(** ** [Trapezoid.calc] *)

(** C3: [Trapezoid.calc()] returns the sum, over all partitions, of
    [(f(start) + f(end))/2 * length], whether or not the partitions have
    one length; on [f(x) = x] over [[0, 2]] in two partitions it is 2. *)
Theorem Trapezoid_calc_sum :
  (forall (func : AnnotatedFunction.t Q) (interval : Interval.t Q) (g : rng Q),
      exists v,
        Trapezoid.calc (Trapezoid.init func interval) g = (Ok v, g)
        /\ (v == trapezoid_sum (AnnotatedFunction.func func)
                               (Interval.partitions interval))%Q)
  /\ (forall g, exists v,
         Trapezoid.calc (Trapezoid.init f_id I02) g = (Ok v, g) /\ (v == 2)%Q)
  /\ (forall g, exists v,
         Trapezoid.calc (Trapezoid.init f_id I013) g = (Ok v, g) /\ (v == 9 # 2)%Q).
Proof.
  split; [|split; intros g; eexists; split; reflexivity].
  intros func interval g. eexists. split; [reflexivity|].
  unfold trapezoid_sum, Interval.iter, Partition.length. Qops.
  cbn [Trapezoid.init Quadrature.init Quadrature.interval Quadrature.func].
  rewrite (fold_left_sum
             (fun p => ((AnnotatedFunction.func func (Partition.start p)
                         + AnnotatedFunction.func func (Partition.end_ p)) / 2
                        * (Partition.end_ p - Partition.start p))%Q)).
  ring.
Qed.

(** ** [Simpson.calc] *)

Lemma bind_lift (num A B : Type) (r : result A) (k : A -> M num B)
      (g : rng num) (a : A) :
  r = Ok a -> bind (lift r) k g = k a g.
Proof. intros ->. reflexivity. Qed.

(** The y-values of the points, read through the list of their y. *)
Lemma y_at_points (pts : list (Point.t Q)) (idx : list nat) :
  map (@Point.y Q) (map (fun k => nth k pts (Point.mk 0%Q 0%Q)) idx)
  = map (y_at (map (@Point.y Q) pts)) idx.
Proof.
  rewrite map_map. apply map_ext. intros k. unfold y_at.
  exact (eq_sym (map_nth (@Point.y Q) pts (Point.mk 0%Q 0%Q) k)).
Qed.

(** On an object with the [Left] method and a non-empty interval,
    [Simpson.calc] accumulates the weighted sum of the y-values and then
    multiplies it, once, by the first partition's length over 3. *)
Lemma Simpson_calc_weighted (f : AnnotatedFunction.t Q) (i : Interval.t Q)
      (first : Partition.t Q) (rest : list (Partition.t Q)) (g : rng Q) :
  Interval.partitions i = first :: rest ->
  exists area,
    Simpson.calc (Quadrature.mk f i Method.Left) g
    = (Ok (area * Partition.length first / 3)%Q, g)
    /\ (area == simpson_weighted
                  (map (@Point.y Q)
                       (map (left_point (AnnotatedFunction.func f)) (Interval.partitions i)
                        ++ [Point.mk (Interval.end_ i)
                                     (AnnotatedFunction.func f (Interval.end_ i))]))
                  (List.length (Interval.partitions i)))%Q.
Proof.
  intros Hparts.
  set (s := Quadrature.mk f i Method.Left).
  set (e := Point.mk (Interval.end_ i) (AnnotatedFunction.func f (Interval.end_ i))).
  set (pts := map (left_point (AnnotatedFunction.func f)) (Interval.partitions i) ++ [e]).
  assert (Hpts : forall g1, Simpson.points s g1 = (Ok pts, g1)).
  { intros g1. unfold pts, e, s. apply endpoint_points. apply points_left. }
  assert (Hlen : List.length pts = S (List.length (Interval.partitions i))).
  { unfold pts. rewrite length_app, length_map. cbn. lia. }
  assert (H0 : Py.getitem pts 0 = Ok (left_point (AnnotatedFunction.func f) first)).
  { unfold pts. rewrite Hparts. apply getitem_head. }
  assert (Hn : Py.getitem pts (-1) = Ok e) by apply getitem_last.
  assert (Hfirst : Interval.getitem i 0 = Ok first).
  { unfold Interval.getitem. rewrite Hparts. apply getitem_head. }
  eexists. split.
  - unfold Simpson.calc.
    rewrite (@bind_run _ _ _ _ _ _ _ _ (Hpts g)), (@bind_lift _ _ _ _ _ _ _ H0).
    rewrite (@bind_run _ _ _ _ _ _ _ _ (Hpts g)), (@bind_lift _ _ _ _ _ _ _ Hn).
    rewrite (@bind_run _ _ _ _ _ _ _ _ (Hpts g)).
    rewrite (@bind_run _ _ _ _ _ _ _ _ (Hpts g)).
    cbn [Quadrature.interval s].
    rewrite (@bind_lift _ _ _ _ _ _ _ Hfirst).
    reflexivity.
  - Qops.
    rewrite (fold_left_sum (fun p => (inject_Z 2 * Point.y p)%Q)).
    rewrite (fold_left_sum (fun p => (inject_Z 4 * Point.y p)%Q)).
    rewrite !sum_Q_scale.
    change (Py.slice pts 1 (-1) 2) with (Py.slice pts (Z.of_nat 1) (-1) 2).
    change (Py.slice pts 2 (-1) 2) with (Py.slice pts (Z.of_nat 2) (-1) 2).
    rewrite (slice_interior (Point.mk 0%Q 0%Q) pts (a := 1) Hlen)
      by (rewrite Hparts; cbn; lia).
    rewrite (slice_interior (Point.mk 0%Q 0%Q) pts (a := 2) Hlen)
      by (rewrite Hparts; cbn; lia).
    rewrite !y_at_points.
    unfold simpson_weighted.
    rewrite odd_indices, even_indices.
    replace (S (List.length (Interval.partitions i) - 1))
      with (List.length (Interval.partitions i))
      by (rewrite Hparts; cbn; lia).
    assert (Ey0 : y_at (map (@Point.y Q) pts) 0
                  = Point.y (left_point (AnnotatedFunction.func f) first)).
    { unfold pts. rewrite Hparts. reflexivity. }
    assert (Eyn : y_at (map (@Point.y Q) pts) (List.length (Interval.partitions i))
                  = Point.y e).
    { unfold y_at, pts. rewrite map_app, app_nth2; rewrite !length_map; [|lia].
      rewrite Nat.sub_diag. reflexivity. }
    rewrite Ey0, Eyn.
    change (inject_Z 4) with 4%Q. change (inject_Z 2) with 2%Q.
    ring.
Qed.

Lemma init_even (f : AnnotatedFunction.t Q) (i : Interval.t Q) (s : Quadrature.t Q) :
  Simpson.init f i = Ok s ->
  Nat.even (List.length (Interval.partitions i)) = true.
Proof.
  unfold Simpson.init. rewrite mod2_even.
  destruct (Nat.even _); [reflexivity|discriminate].
Qed.

(** C1: on a Simpson instance over [n] partitions of common length [h],
    [calc()] accumulates [area = y_0 + y_n + 4 * (sum of the odd-indexed y)
    + 2 * (sum of the even-indexed interior y)] over the [n+1] points and
    returns [area * h / 3], that is [h/3] times the weighted sum; on
    [f(x) = x^2] over [[0, 2]] in two partitions it returns 8/3. *)
Theorem Simpson_calc_rule :
  (forall (func : AnnotatedFunction.t Q) (interval : Interval.t Q)
          (self : Quadrature.t Q) (h : Q) (g : rng Q),
      Simpson.init func interval = Ok self ->
      Interval.partitions interval <> [] ->
      Forall (fun p => Partition.length p == h)%Q (Interval.partitions interval) ->
      exists pts area first,
        Simpson.points self g = (Ok pts, g)
        /\ List.length pts = S (partition_count self)
        /\ Interval.getitem interval 0 = Ok first
        /\ Simpson.calc self g = (Ok (area * Partition.length first / 3)%Q, g)
        /\ (area == simpson_weighted (map (@Point.y Q) pts) (partition_count self))%Q
        /\ (area * Partition.length first / 3
            == simpson_rule h (map (@Point.y Q) pts) (partition_count self))%Q)
  /\ (exists self,
         Simpson.init f_sq I02 = Ok self
         /\ forall g, Simpson.calc self g = (Ok (8 # 3)%Q, g)).
Proof.
  split.
  - intros func interval self h g Hinit Hne Hh.
    apply init_method in Hinit. subst self.
    destruct (Interval.partitions interval) as [|first rest] eqn:Hparts;
      [contradiction|].
    destruct (Simpson_calc_weighted func interval g Hparts) as (area & Hcalc & Harea).
    eexists. exists area, first.
    split; [apply endpoint_points; apply points_left|].
    unfold partition_count. cbn [Quadrature.interval Quadrature.func].
    rewrite Hparts in *.
    split; [rewrite length_app, length_map; cbn; lia|].
    split; [unfold Interval.getitem; rewrite Hparts; apply getitem_head|].
    split; [exact Hcalc|].
    split; [exact Harea|].
    unfold simpson_rule. rewrite <- Harea.
    inversion Hh as [|? ? Hfirst _]; subst. rewrite Hfirst.
    field.
  - eexists. split; [reflexivity|]. intros g. reflexivity.
Qed.

Lemma Simpson_calc_rule_witness :
  exists pts area first,
    Simpson.points (Quadrature.mk f_id I02 Method.Left) g0 = (Ok pts, g0)
    /\ List.length pts = 3
    /\ Interval.getitem I02 0 = Ok first
    /\ Simpson.calc (Quadrature.mk f_id I02 Method.Left) g0
       = (Ok (area * Partition.length first / 3)%Q, g0)
    /\ (area == simpson_weighted (map (@Point.y Q) pts) 2)%Q
    /\ (area * Partition.length first / 3
        == simpson_rule 1 (map (@Point.y Q) pts) 2)%Q.
Proof.
  apply (proj1 Simpson_calc_rule f_id I02 (Quadrature.mk f_id I02 Method.Left) 1%Q g0).
  - reflexivity.
  - discriminate.
  - repeat constructor.
Defined.

(** ** The equal-length test of [Simpson.__init__] *)

(** [10**-3] is the double [0.001]. *)
Lemma tolerance_value : int_pow_negative 10 (-3) = Ok double_1e_3.
Proof. vm_compute. reflexivity. Qed.

Section InitTest.
Context {num : Type} `{Number num}.

(** The test for one partition, once the first partition is known. *)
Lemma close_to_first_test (i : Interval.t num) (p : Partition.t num) :
  Interval.partitions i <> [] ->
  Simpson.close_to_first i p = Ok (within_tolerance i p).
Proof.
  unfold Simpson.close_to_first, Interval.getitem, within_tolerance.
  destruct (Interval.partitions i) as [|first rest]; [contradiction|].
  intros _. rewrite getitem_head. cbn [rbind hd_error].
  rewrite tolerance_value. reflexivity.
Qed.

(** The generator of [__init__] never raises: [interval[0]] is read only
    while iterating over a partition. *)
Lemma all_close_to_first (i : Interval.t num) :
  Py.all (Simpson.close_to_first i) (Interval.iter i)
  = Ok (forallb (within_tolerance i) (Interval.partitions i)).
Proof.
  unfold Interval.iter.
  destruct (Interval.partitions i) as [|first rest] eqn:Hparts; [reflexivity|].
  assert (Hne : Interval.partitions i <> []) by (rewrite Hparts; discriminate).
  rewrite <- Hparts. clear Hparts.
  generalize (Interval.partitions i) at 1 2. intros l.
  induction l as [|p l IH]; [reflexivity|].
  cbn [Py.all forallb]. rewrite (@close_to_first_test i p Hne). cbn [rbind].
  destruct (within_tolerance i p); [exact IH|reflexivity].
Qed.

(** [Simpson.__init__], outcome by outcome. *)
Lemma init_cases (f : AnnotatedFunction.t num) (i : Interval.t num) :
  Simpson.init f i
  = if negb (Nat.even (List.length (Interval.partitions i)))
    then Err (ValueError Simpson.even_message)
    else if forallb (within_tolerance i) (Interval.partitions i)
         then Ok (Quadrature.mk f i Method.Left)
         else Err (ValueError Simpson.length_message).
Proof.
  unfold Simpson.init. rewrite mod2_even, all_close_to_first.
  destruct (negb _); [reflexivity|]. cbn [rbind].
  destruct (forallb _ _); reflexivity.
Qed.

End InitTest.

(** In exact rationals the test compares with the exact value of the
    double. *)
Lemma Q_within_tolerance (a : Q) :
  Q_lt_float a double_1e_3 = true <-> (a < tol_Q)%Q.
Proof.
  unfold Q_lt_float.
  replace (Q_of_float double_1e_3) with (Some tol_Q) by (vm_compute; reflexivity).
  rewrite negb_true_iff. split.
  - intros E. apply Qnot_le_lt. intros Hle.
    apply Qle_bool_iff in Hle. congruence.
  - intros Hlt. destruct (Qle_bool tol_Q a) eqn:E; [|reflexivity].
    apply Qle_bool_iff in E. apply Qlt_not_le in Hlt. contradiction.
Qed.

Lemma within_tolerance_Q (i : Interval.t Q) (first p : Partition.t Q) :
  hd_error (Interval.partitions i) = Some first ->
  within_tolerance i p = true
  <-> (Partition.length first - tol_Q < Partition.length p)%Q.
Proof.
  intros Hfirst. unfold within_tolerance. rewrite Hfirst.
  cbn [lt_float Number_Q]. rewrite Q_within_tolerance.
  cbn [sub Number_Q]. split; intros E; lra.
Qed.

(** Where the test does reject: an even number of partitions, one of them
    shorter than the first by the value of the double [1e-3] or more. *)
Lemma Simpson_init_shorter_rejected (f : AnnotatedFunction.t Q) (i : Interval.t Q)
      (first : Partition.t Q) :
  Nat.even (List.length (Interval.partitions i)) = true ->
  hd_error (Interval.partitions i) = Some first ->
  (exists p, In p (Interval.partitions i)
             /\ (Partition.length p <= Partition.length first - tol_Q)%Q) ->
  Simpson.init f i = Err (ValueError "All partition lengths must be the same.").
Proof.
  intros Heven Hfirst (p & Hin & Hshort).
  rewrite init_cases, Heven. cbn [negb].
  destruct (forallb (within_tolerance i) (Interval.partitions i)) eqn:E;
    [|reflexivity].
  rewrite forallb_forall in E. specialize (E p Hin).
  apply (within_tolerance_Q i p Hfirst) in E. lra.
Qed.

(** C5, on the code: the interval [[0, 1], [1, 3]] has an even number of
    partitions and its second partition is longer than the first by 1,
    more than [1e-3]; [Simpson.__init__] raises nothing and returns the
    instance. *)
Theorem Simpson_init_longer_partition_accepted :
  map (fun p => Partition.length p) (Interval.partitions I013) = [1%Q; 2%Q]
  /\ (1 # 1000 < 2 - 1)%Q
  /\ Simpson.init f_sq I013 = Ok (Quadrature.mk f_sq I013 Method.Left)
  /\ is_ValueError (Simpson.init f_sq I013) = false.
Proof.
  repeat split.
Qed.

(** C6, on the code in doubles: the interval [[-0.001, 0], [0, 2^-64]] has
    an even number of partitions, of lengths [0.001] and [2^-64], each
    greater than the first length minus [1e-3]; yet [0.001 - 2^-64] rounds
    to [0.001], which is not below [10**-3], and [Simpson.__init__] raises
    the [ValueError]. *)
Lemma Simpson_init_rounding_rejects :
  Nat.even (List.length (Interval.partitions F_rounding)) = true
  /\ (exists q1 q2,
         map (fun p => Q_of_float (Partition.length p)) (Interval.partitions F_rounding)
         = [Some q1; Some q2]
         /\ (q1 == tol_Q)%Q /\ (q2 == 1 # 18446744073709551616)%Q
         /\ (q1 - (1 # 1000) < q1)%Q /\ (q1 - (1 # 1000) < q2)%Q
         /\ (q1 - tol_Q < q1)%Q /\ (q1 - tol_Q < q2)%Q)
  /\ Simpson.init f_id F_rounding
     = Err (ValueError "All partition lengths must be the same.").
Proof.
  split; [reflexivity|]. split.
  - eexists; eexists. split; [vm_compute; reflexivity|].
    repeat split; vm_compute; reflexivity.
  - vm_compute. reflexivity.
Qed.

(** C6, amended: the equal-length test of [Simpson.__init__] is one-sided.
    In every arithmetic, construction succeeds exactly when the number of
    partitions is even and, for every partition, the difference
    [interval[0].length - i.length] as computed is below the double
    [10**-3]; an even interval with a partition that fails this test is
    rejected.  In exact rationals the test is [i.length > interval[0].length
    - t] with [t] the exact value of that double, so a partition longer
    than the first is accepted whatever the excess (as on [[0, 1], [1, 3]],
    in rationals and in doubles) and one shorter by [t] or more is
    rejected.  On every instance [calc()] multiplies the weighted sum by
    the first partition's length over 3. *)
Theorem Simpson_init_one_sided :
  (forall (num : Type) (N : Number num)
          (func : AnnotatedFunction.t num) (interval : Interval.t num),
      (Simpson.init func interval = Ok (Quadrature.mk func interval Method.Left)
       <-> Nat.even (List.length (Interval.partitions interval)) = true
           /\ forall p, In p (Interval.partitions interval) ->
                        within_tolerance interval p = true)
      /\ (Nat.even (List.length (Interval.partitions interval)) = true ->
          (exists p, In p (Interval.partitions interval)
                     /\ within_tolerance interval p = false) ->
          Simpson.init func interval
          = Err (ValueError "All partition lengths must be the same.")))
  /\ (forall (func : AnnotatedFunction.t Q) (interval : Interval.t Q),
         Nat.even (List.length (Interval.partitions interval)) = true ->
         (forall first p,
             hd_error (Interval.partitions interval) = Some first ->
             In p (Interval.partitions interval) ->
             (Partition.length first - tol_Q < Partition.length p)%Q) ->
         Simpson.init func interval = Ok (Quadrature.mk func interval Method.Left))
  /\ (forall (func : AnnotatedFunction.t Q) (interval : Interval.t Q)
             (first : Partition.t Q),
         Nat.even (List.length (Interval.partitions interval)) = true ->
         hd_error (Interval.partitions interval) = Some first ->
         (exists p, In p (Interval.partitions interval)
                    /\ (Partition.length p <= Partition.length first - tol_Q)%Q) ->
         Simpson.init func interval
         = Err (ValueError "All partition lengths must be the same."))
  /\ (exists first longer,
         Interval.partitions I013 = [first; longer]
         /\ (Partition.length first + (1 # 1000) < Partition.length longer)%Q
         /\ Simpson.init f_sq I013 = Ok (Quadrature.mk f_sq I013 Method.Left))
  /\ Simpson.init f_sq F013 = Ok (Quadrature.mk f_sq F013 Method.Left)
  /\ (forall (func : AnnotatedFunction.t Q) (interval : Interval.t Q)
             (self : Quadrature.t Q) (first : Partition.t Q) (g : rng Q),
         Simpson.init func interval = Ok self ->
         hd_error (Interval.partitions interval) = Some first ->
         exists pts area,
           Simpson.points self g = (Ok pts, g)
           /\ Simpson.calc self g = (Ok (area * Partition.length first / 3)%Q, g)
           /\ (area == simpson_weighted (map (@Point.y Q) pts)
                                        (partition_count self))%Q).
Proof.
  split; [|split; [|split; [|split; [|split]]]].
  - intros num N func interval. rewrite init_cases. split.
    + destruct (Nat.even (List.length (Interval.partitions interval))); cbn [negb].
      * destruct (forallb (within_tolerance interval) (Interval.partitions interval))
          eqn:E.
        -- split; [intros _|reflexivity]. split; [reflexivity|].
           apply forallb_forall. exact E.
        -- split; [discriminate|]. intros [_ Hall].
           apply forallb_forall in Hall. congruence.
      * split; [discriminate|]. intros [Hf _]. discriminate Hf.
    + intros -> (p & Hin & Hp). cbn [negb].
      destruct (forallb (within_tolerance interval) (Interval.partitions interval))
        eqn:E; [|reflexivity].
      rewrite forallb_forall in E. rewrite (E p Hin) in Hp. discriminate Hp.
  - intros func interval Heven Hall.
    rewrite init_cases, Heven. cbn [negb].
    replace (forallb (within_tolerance interval) (Interval.partitions interval))
      with true; [reflexivity|].
    symmetry. apply forallb_forall. intros p Hp.
    destruct (Interval.partitions interval) as [|first rest] eqn:Hparts;
      [destruct Hp|].
    apply (@within_tolerance_Q interval first p); [rewrite Hparts; reflexivity|].
    apply Hall; [reflexivity|exact Hp].
  - intros func interval first Heven Hfirst Hshort.
    exact (Simpson_init_shorter_rejected func interval Heven Hfirst Hshort).
  - eexists; eexists. split; [reflexivity|]. split; reflexivity.
  - vm_compute. reflexivity.
  - intros func interval self first g Hinit Hfirst.
    apply init_method in Hinit. subst self.
    destruct (Interval.partitions interval) as [|a rest] eqn:Hparts;
      [discriminate Hfirst|].
    inversion Hfirst; subst a.
    destruct (Simpson_calc_weighted func interval g Hparts) as (area & Hcalc & Harea).
    eexists. exists area.
    split; [apply endpoint_points; apply points_left|].
    split; [exact Hcalc|].
    unfold partition_count. cbn [Quadrature.interval Quadrature.func].
    exact Harea.
Qed.

Lemma Simpson_init_one_sided_witness :
  Simpson.init f_id I013 = Ok (Quadrature.mk f_id I013 Method.Left)
  /\ Simpson.init f_id I023 = Err (ValueError "All partition lengths must be the same.")
  /\ Simpson.init f_id F_rounding
     = Err (ValueError "All partition lengths must be the same.")
  /\ exists pts area,
       Simpson.points (Quadrature.mk f_id I013 Method.Left) g0 = (Ok pts, g0)
       /\ Simpson.calc (Quadrature.mk f_id I013 Method.Left) g0
          = (Ok (area * Partition.length (Partition.mk 0 1) / 3)%Q, g0)
       /\ (area == simpson_weighted (map (@Point.y Q) pts) 2)%Q.
Proof.
  destruct Simpson_init_one_sided as (Hgen & Haccept & Hreject & _ & _ & Hcalc).
  split; [|split; [|split]].
  - apply (Haccept f_id I013).
    + reflexivity.
    + intros first p Hfirst Hp. inversion Hfirst; subst first.
      destruct Hp as [<-|[<-|[]]]; reflexivity.
  - apply (Hreject f_id I023 (Partition.mk 0%Q 2%Q)).
    + reflexivity.
    + reflexivity.
    + exists (Partition.mk 2%Q 3%Q). split; [right; left; reflexivity|].
      vm_compute. discriminate.
  - apply (proj2 (Hgen PrimFloat.float Number_float f_id F_rounding)).
    + reflexivity.
    + eexists. split; [right; left; reflexivity|]. vm_compute. reflexivity.
  - apply (Hcalc f_id I013 (Quadrature.mk f_id I013 Method.Left)
                 (Partition.mk 0%Q 1%Q) g0).
    + reflexivity.
    + reflexivity.
Defined.

(** ** [chunk_iter] and [Simpson.parabolas] *)

Lemma chunk_iter_pair (A : Type) (a b : A) (l : list A) :
  chunk_iter (a :: b :: l) 2 = [Item a; Item b] :: chunk_iter l 2.
Proof. reflexivity. Qed.

Lemma chunk_iter_single (A : Type) (a : A) :
  chunk_iter [a] 2 = [[Item a; Fill]].
Proof. reflexivity. Qed.

Section ParabolasComputed.
Context {num : Type} `{Number num}.

Lemma init_Ok (f : AnnotatedFunction.t num) (i : Interval.t num)
      (s : Quadrature.t num) :
  Simpson.init f i = Ok s ->
  Nat.even (List.length (Interval.partitions i)) = true
  /\ s = Quadrature.mk f i Method.Left.
Proof.
  rewrite init_cases.
  destruct (Nat.even _); cbn [negb]; [|discriminate].
  destruct (forallb _ _); [|discriminate].
  intros E. inversion E. split; reflexivity.
Qed.


Variable f : num -> num.
Variable size : num.

(** The loop body on a pair of partitions, when [size**2] returns and
    neither divisor is zero. *)
Lemma parabola_pair_computed (square : num) (a b : Partition.t num) :
  (size ** 2)%num = Ok square ->
  is_zero (lit 2 * square)%num = false ->
  is_zero (lit 2 * size)%num = false ->
  Simpson.parabola f size [Item a; Item b] = Ok (coefficients f size square a b).
Proof.
  intros Hpow Hz1 Hz2. unfold Simpson.parabola, coefficients, truediv.
  cbn [Simpson.attr_start Simpson.attr_end rbind].
  rewrite Hpow. cbn [rbind]. rewrite Hz1. cbn [rbind]. rewrite Hz2. reflexivity.
Qed.


(** On [2k] partitions the loop appends [k] triples, the [j]-th from the
    partitions [2j] and [2j+1]. *)
Lemma parabolas_even_computed (square : num) :
  (size ** 2)%num = Ok square ->
  is_zero (lit 2 * square)%num = false ->
  is_zero (lit 2 * size)%num = false ->
  forall (k : nat) (l : list (Partition.t num)),
    List.length l = 2 * k ->
    exists ts,
      Simpson.for_append (Simpson.parabola f size) (chunk_iter l 2) = Ok ts
      /\ List.length ts = k
      /\ forall j p0 p1,
           nth_error l (2 * j) = Some p0 ->
           nth_error l (2 * j + 1) = Some p1 ->
           nth_error ts j = Some (coefficients f size square p0 p1).
Proof.
  intros Hpow Hz1 Hz2. induction k as [|k IH]; intros l Hlen.
  - destruct l; [|discriminate Hlen].
    exists []. repeat split. intros j p0 p1 E. destruct j; discriminate E.
  - destruct l as [|a [|b l]]; try (cbn in Hlen; lia).
    destruct (IH l) as (ts & Hts & Hk & Hj); [cbn in Hlen; lia|].
    eexists. rewrite chunk_iter_pair. cbn [Simpson.for_append].
    rewrite (parabola_pair_computed a b Hpow Hz1 Hz2), Hts. cbn [rbind].
    split; [reflexivity|]. split; [cbn; lia|].
    intros [|j] p0 p1 E0 E1.
    + cbn in E0, E1. inversion E0. inversion E1. reflexivity.
    + replace (2 * S j) with (S (S (2 * j))) in E0 by lia.
      replace (2 * S j + 1) with (S (S (2 * j + 1))) in E1 by lia.
      cbn [nth_error] in *. exact (Hj j p0 p1 E0 E1).
Qed.



End ParabolasComputed.

Lemma truediv_nonzero (a b : Q) : ~ (b == 0)%Q -> truediv a b = Ok (a / b)%Q.
Proof.
  intros Hb. unfold truediv. Qops.
  destruct (Qeq_bool b 0) eqn:E; [|reflexivity].
  apply Qeq_bool_iff in E. contradiction.
Qed.

(** The loop body on a pair of partitions, for a non-zero [size]. *)
Lemma parabola_pair (f : Q -> Q) (size : Q) (a b : Partition.t Q) :
  ~ (size == 0)%Q ->
  Simpson.parabola f size [Item a; Item b]
  = Ok (parabola_A size (f (Partition.start a)) (f (Partition.start b))
                   (f (Partition.end_ b)),
        parabola_B size (f (Partition.start a)) (f (Partition.end_ b)),
        f (Partition.start b)).
Proof.
  intros Hsize.
  rewrite (@parabola_pair_computed Q _ f size (size * size)%Q a b).
  - reflexivity.
  - reflexivity.
  - Qops. destruct (Qeq_bool (inject_Z 2 * (size * size)) 0) eqn:E; [|reflexivity].
    apply Qeq_bool_iff in E. exfalso. apply Hsize.
    destruct (Qmult_integral _ _ E) as [E2|E2]; [discriminate E2|].
    destruct (Qmult_integral _ _ E2); assumption.
  - Qops. destruct (Qeq_bool (inject_Z 2 * size) 0) eqn:E; [|reflexivity].
    apply Qeq_bool_iff in E. exfalso. apply Hsize.
    destruct (Qmult_integral _ _ E) as [E2|E2]; [discriminate E2|exact E2].
Qed.

(** On [2k] partitions the loop of [parabolas] appends [k] triples, the
    [j]-th from the partitions [2j] and [2j+1]. *)
Lemma parabolas_even (f : Q -> Q) (size : Q) :
  ~ (size == 0)%Q ->
  forall (k : nat) (l : list (Partition.t Q)),
    List.length l = 2 * k ->
    exists ts,
      Simpson.for_append (Simpson.parabola f size) (chunk_iter l 2) = Ok ts
      /\ List.length ts = k
      /\ forall j, j < k ->
                   is_parabola size (pair_ys f l j) (nth j ts (0, 0, 0)%Q).
Proof.
  intros Hsize. induction k as [|k IH]; intros l Hlen.
  - destruct l; [|discriminate Hlen].
    exists []. repeat split. intros j Hj. lia.
  - destruct l as [|a [|b l]]; try (cbn in Hlen; lia).
    destruct (IH l) as (ts & Hts & Hk & Hj); [cbn in Hlen; lia|].
    eexists. rewrite chunk_iter_pair. cbn [Simpson.for_append].
    rewrite (parabola_pair f a b Hsize), Hts. cbn [rbind].
    split; [reflexivity|]. split; [cbn; lia|].
    intros [|j] Hlt.
    + cbn. repeat split; reflexivity.
    + unfold pair_ys.
      replace (2 * S j) with (S (S (2 * j))) by lia.
      cbn [nth Nat.add]. apply Hj. lia.
Qed.

(** On [2k+1] partitions the loop of [parabolas] reaches the padded chunk
    and raises [AttributeError]. *)
Lemma parabolas_odd (f : Q -> Q) (size : Q) :
  ~ (size == 0)%Q ->
  forall (k : nat) (l : list (Partition.t Q)),
    List.length l = 2 * k + 1 ->
    Simpson.for_append (Simpson.parabola f size) (chunk_iter l 2)
    = Err AttributeError.
Proof.
  intros Hsize. induction k as [|k IH]; intros l Hlen.
  - destruct l as [|a [|b l]]; try discriminate Hlen. reflexivity.
  - destruct l as [|a [|b l]]; try (cbn in Hlen; lia).
    rewrite chunk_iter_pair. cbn [Simpson.for_append].
    rewrite (parabola_pair f a b Hsize). cbn [rbind].
    rewrite IH by (cbn in Hlen; lia). reflexivity.
Qed.

Lemma chain_zero_lengths (a b : Q) (parts : list (Partition.t Q)) :
  chain a parts b ->
  Forall (fun p => Partition.length p == 0)%Q parts ->
  (a == b)%Q.
Proof.
  revert a. induction parts as [|p rest IH]; intros a Hchain Hzero.
  - exact Hchain.
  - destruct Hchain as (Hstart & _ & Hrest).
    inversion Hzero as [|? ? Hp Hrest0]; subst.
    rewrite <- (IH _ Hrest Hrest0), <- Hstart.
    unfold Partition.length in Hp. Qops.
    symmetry. apply Qplus_inj_r with (z := (- Partition.start p)%Q).
    rewrite Qplus_opp_r. exact Hp.
Qed.

(** A valid interval cut in partitions of one length [h] has [h <> 0] and
    at least one partition. *)
Lemma valid_interval_common_length (i : Interval.t Q) (h : Q) :
  valid_interval i ->
  Forall (fun p => Partition.length p == h)%Q (Interval.partitions i) ->
  ~ (h == 0)%Q /\ Interval.partitions i <> [].
Proof.
  intros [Hlt Hchain] Hh. split.
  - intros Hz.
    assert (E : (Interval.start i == Interval.end_ i)%Q).
    { apply (chain_zero_lengths _ _ Hchain).
      eapply Forall_impl; [|exact Hh].
      cbn beta. intros p Hp. rewrite Hp. exact Hz. }
    rewrite E in Hlt. exact (Qlt_irrefl _ Hlt).
  - intros Hnil. rewrite Hnil in Hchain. cbn in Hchain.
    rewrite Hchain in Hlt. exact (Qlt_irrefl _ Hlt).
Qed.

Lemma is_parabola_length (size h : Q) (ys t : Q * Q * Q) :
  (size == h)%Q -> is_parabola size ys t -> is_parabola h ys t.
Proof.
  intros E. destruct ys as [[y0 y1] y2], t as [[A B] C].
  unfold is_parabola, parabola_A, parabola_B.
  intros (HA & HB & HC). rewrite <- E. repeat split; assumption.
Qed.

(** [parabolas] on an object with a non-empty interval whose first
    partition has a non-zero length and whose partitions are [2k]. *)
Lemma Simpson_parabolas_run (self : Quadrature.t Q) (first : Partition.t Q)
      (k : nat) (g : rng Q) :
  hd_error (Interval.partitions (Quadrature.interval self)) = Some first ->
  ~ (Partition.length first == 0)%Q ->
  partition_count self = 2 * k ->
  exists ts,
    Simpson.parabolas self g = (Ok ts, g)
    /\ List.length ts = k
    /\ forall j, j < k ->
                 is_parabola (Partition.length first)
                             (pair_ys (AnnotatedFunction.func (Quadrature.func self))
                                      (Interval.partitions (Quadrature.interval self)) j)
                             (nth j ts (0, 0, 0)%Q).
Proof.
  intros Hfirst Hsize Hcount.
  destruct (@parabolas_even (AnnotatedFunction.func (Quadrature.func self)) _ Hsize k
                            (Interval.partitions (Quadrature.interval self)) Hcount)
    as (ts & Hts & Hlen & Hj).
  exists ts. split; [|split; assumption].
  unfold Simpson.parabolas, Interval.getitem, Interval.iter.
  destruct (Interval.partitions (Quadrature.interval self)) as [|a rest];
    [discriminate|].
  inversion Hfirst; subst a.
  rewrite (@bind_lift _ _ _ _ _ _ _ (getitem_head first rest)).
  unfold lift. rewrite Hts. reflexivity.
Qed.

(** Over exact rationals and a valid interval cut in partitions of one
    length [h], [parabolas()] returns the closed form. *)
Lemma Simpson_parabolas_rational
      (func : AnnotatedFunction.t Q) (interval : Interval.t Q)
      (self : Quadrature.t Q) (h : Q) (g : rng Q) :
  valid_interval interval ->
  Simpson.init func interval = Ok self ->
  Forall (fun p => Partition.length p == h)%Q (Interval.partitions interval) ->
  exists ts,
    Simpson.parabolas self g = (Ok ts, g)
    /\ List.length ts = partition_count self / 2
    /\ forall k, k < partition_count self / 2 ->
                 is_parabola h
                             (pair_ys (AnnotatedFunction.func func)
                                      (Interval.partitions interval) k)
                             (nth k ts (0, 0, 0)%Q).
Proof.
  intros Hvalid Hinit Hh.
  destruct (valid_interval_common_length Hvalid Hh) as [Hnz Hne].
  pose proof (init_even _ _ Hinit) as Heven.
  apply init_method in Hinit. subst self.
  apply Nat.even_spec in Heven. destruct Heven as [k Hk].
  destruct (Interval.partitions interval) as [|first rest] eqn:Hparts;
    [contradiction|].
  assert (Hsize : (Partition.length first == h)%Q)
    by (inversion Hh; assumption).
  destruct (@Simpson_parabolas_run (Quadrature.mk func interval Method.Left)
                                   first k g) as (ts & Hrun & Hlen & Hj).
  - cbn [Quadrature.interval]. rewrite Hparts. reflexivity.
  - rewrite Hsize. exact Hnz.
  - unfold partition_count. cbn [Quadrature.interval]. rewrite Hparts. exact Hk.
  - exists ts.
    assert (Hhalf : partition_count (Quadrature.mk func interval Method.Left) / 2 = k).
    { unfold partition_count. cbn [Quadrature.interval]. rewrite Hparts, Hk. dlia. }
    rewrite Hhalf. split; [exact Hrun|]. split; [exact Hlen|].
    intros j Hlt. apply (is_parabola_length _ _ Hsize).
    specialize (Hj j Hlt). cbn [Quadrature.interval Quadrature.func] in Hj.
    rewrite Hparts in Hj. exact Hj.
Qed.

(** C8, on the code in doubles: two partitions of the one length [2^-600]
    pass [Simpson.__init__], and [parabolas()] raises [ZeroDivisionError],
    because [size**2] underflows to zero; with the one length [2^600] it
    raises [OverflowError].  No triple is returned. *)
Lemma Simpson_parabolas_doubles_raise :
  map (fun p => Partition.length p) (Interval.partitions F_tiny)
  = [two_pow (-600); two_pow (-600)]
  /\ Simpson.init f_id F_tiny = Ok (Quadrature.mk f_id F_tiny Method.Left)
  /\ Simpson.parabolas (Quadrature.mk f_id F_tiny Method.Left) g0
     = (Err ZeroDivisionError, g0)
  /\ map (fun p => Partition.length p) (Interval.partitions F_huge)
     = [two_pow 600; two_pow 600]
  /\ Simpson.init f_id F_huge = Ok (Quadrature.mk f_id F_huge Method.Left)
  /\ Simpson.parabolas (Quadrature.mk f_id F_huge Method.Left) g0
     = (Err OverflowError, g0).
Proof.
  repeat split; vm_compute; reflexivity.
Qed.

(** C8, amended: on a Simpson instance over [n] partitions of common
    length [h], in every arithmetic, [parabolas()] returns exactly [n/2]
    triples, one per consecutive pair of partitions, computed as
    [A = (y0 - 2*y1 + y2)/(2*h**2)], [B = (y2 - y0)/(2*h)], [C = y1],
    whenever [h**2] returns and neither of the computed divisors
    [2*h**2] and [2*h] is zero; over exact rationals and a valid interval
    that is always so, and the triple is the closed form. *)
Theorem Simpson_parabolas_closed_form :
  (forall (num : Type) (N : Number num)
          (func : AnnotatedFunction.t num) (interval : Interval.t num)
          (self : Quadrature.t num) (h square : num) (g : rng num),
      Simpson.init func interval = Ok self ->
      Interval.partitions interval <> [] ->
      Forall (fun p => Partition.length p = h) (Interval.partitions interval) ->
      (h ** 2)%num = Ok square ->
      is_zero (lit 2 * square)%num = false ->
      is_zero (lit 2 * h)%num = false ->
      exists ts,
        Simpson.parabolas self g = (Ok ts, g)
        /\ List.length ts = partition_count self / 2
        /\ forall k p0 p1,
             nth_error (Interval.partitions interval) (2 * k) = Some p0 ->
             nth_error (Interval.partitions interval) (2 * k + 1) = Some p1 ->
             nth_error ts k
             = Some (coefficients (AnnotatedFunction.func func) h square p0 p1))
  /\ (forall (func : AnnotatedFunction.t Q) (interval : Interval.t Q)
             (self : Quadrature.t Q) (h : Q) (g : rng Q),
         valid_interval interval ->
         Simpson.init func interval = Ok self ->
         Forall (fun p => Partition.length p == h)%Q (Interval.partitions interval) ->
         exists ts,
           Simpson.parabolas self g = (Ok ts, g)
           /\ List.length ts = partition_count self / 2
           /\ forall k, k < partition_count self / 2 ->
                        is_parabola h
                                    (pair_ys (AnnotatedFunction.func func)
                                             (Interval.partitions interval) k)
                                    (nth k ts (0, 0, 0)%Q)).
Proof.
  split.
  - intros num N func interval self h square g Hinit Hne Hh Hpow Hz1 Hz2.
    apply init_Ok in Hinit. destruct Hinit as [Heven ->].
    apply Nat.even_spec in Heven. destruct Heven as [k Hk].
    destruct (Interval.partitions interval) as [|first rest] eqn:Hparts;
      [contradiction|].
    assert (Hsize : Partition.length first = h) by (inversion Hh; assumption).
    destruct (@parabolas_even_computed num N (AnnotatedFunction.func func) h square
                                       Hpow Hz1 Hz2 k (first :: rest) Hk)
      as (ts & Hts & Hlen & Hj).
    exists ts. split; [|split].
    + unfold Simpson.parabolas, Interval.getitem, Interval.iter.
      cbn [Quadrature.interval Quadrature.func]. rewrite Hparts.
      rewrite (@bind_lift _ _ _ _ _ _ _ (getitem_head first rest)).
      unfold lift. rewrite Hsize, Hts. reflexivity.
    + unfold partition_count. cbn [Quadrature.interval].
      rewrite Hparts, Hk, Hlen. dlia.
    + exact Hj.
  - exact Simpson_parabolas_rational.
Qed.

Lemma Simpson_parabolas_closed_form_witness :
  (exists ts,
      Simpson.parabolas (Quadrature.mk f_sq F02 Method.Left) g0 = (Ok ts, g0)
      /\ List.length ts = 1
      /\ forall k p0 p1,
           nth_error (Interval.partitions F02) (2 * k) = Some p0 ->
           nth_error (Interval.partitions F02) (2 * k + 1) = Some p1 ->
           nth_error ts k
           = Some (coefficients (AnnotatedFunction.func f_sq)
                                (float_lit 1) (float_lit 1) p0 p1))
  /\ exists ts,
       Simpson.parabolas (Quadrature.mk f_sq I02 Method.Left) g0 = (Ok ts, g0)
       /\ List.length ts = 1
       /\ forall k, k < 1 ->
                    is_parabola 1 (pair_ys (AnnotatedFunction.func f_sq)
                                           (Interval.partitions I02) k)
                                (nth k ts (0, 0, 0)%Q).
Proof.
  split.
  - apply (proj1 Simpson_parabolas_closed_form PrimFloat.float Number_float
                 f_sq F02 (Quadrature.mk f_sq F02 Method.Left)
                 (float_lit 1) (float_lit 1) g0).
    + vm_compute. reflexivity.
    + discriminate.
    + repeat constructor.
    + vm_compute. reflexivity.
    + vm_compute. reflexivity.
    + vm_compute. reflexivity.
  - apply (proj2 Simpson_parabolas_closed_form f_sq I02
                 (Quadrature.mk f_sq I02 Method.Left) 1%Q g0).
    + split; [reflexivity|]. cbn. repeat split; try reflexivity; discriminate.
    + reflexivity.
    + repeat constructor.
Defined.




(** ** The examples in doubles

    The same runs in IEEE binary64: the sums of the examples are exact, and
    Simpson's result is the double nearest to 8/3, the value of [8/3] in
    Python. *)
Lemma examples_in_doubles :
  fst (Riemann.calc (Riemann.init f_id F02 Method.Left) g0) = Ok (float_lit 1)
  /\ fst (Riemann.calc (Riemann.init f_id F02 Method.Right) g0) = Ok (float_lit 3)
  /\ fst (Trapezoid.calc (Trapezoid.init f_id F02) g0) = Ok (float_lit 2)
  /\ rbind (Simpson.init f_sq F02) (fun self => fst (Simpson.calc self g0))
     = Ok (PrimFloat.div (float_lit 8) (float_lit 3))
  /\ Simpson.init f_sq F013 = Ok (Quadrature.mk f_sq F013 Method.Left).
Proof.
  repeat split; vm_compute; reflexivity.
Qed.

(** ** The chunks of [chunk_iter] *)

Lemma fill_count_small (k m : nat) :
  m < k -> fill_count k m = if m =? 0 then 0 else k - m.
Proof.
  intros Hm. unfold fill_count. rewrite (Nat.mod_small m k Hm).
  destruct (Nat.eqb_spec m 0) as [->|Hne].
  - rewrite Nat.sub_0_r. apply Nat.Div0.mod_same.
  - apply Nat.mod_small. lia.
Qed.

Lemma fill_count_shift (k m : nat) : fill_count k (k + m) = fill_count k m.
Proof.
  unfold fill_count.
  replace (k + m) with (m + 1 * k) by lia.
  rewrite Nat.Div0.mod_add. reflexivity.
Qed.

Lemma fill_count_lt (k m : nat) : 1 <= k -> fill_count k m < k.
Proof. intros Hk. apply Nat.mod_upper_bound. lia. Qed.

(** While a tuple is under construction, [cur] and [room] add up to the
    chunk size; every tuple that comes out has that size. *)
Lemma chunk_go_sizes (A : Type) (k : nat) (l : list A) :
  forall (cur : list (padded A)) (room : nat),
    1 <= room -> List.length cur + room = k ->
    Forall (fun c => List.length c = k) (chunk_go k l cur room).
Proof.
  induction l as [|a rest IH]; intros cur room Hroom Hinv; cbn [chunk_go].
  - destruct cur as [|c cur]; [constructor|].
    constructor; [|constructor].
    rewrite length_app, repeat_length. exact Hinv.
  - destruct room as [|[|room']]; [lia| |].
    + constructor.
      * rewrite length_app. cbn. lia.
      * apply IH; cbn; lia.
    + apply IH; [lia|]. rewrite length_app. cbn. lia.
Qed.

(** Read in order, the tuples hold [cur], then the items left in the
    iterator, then the fill values. *)
Lemma chunk_go_concat (A : Type) (k : nat) (l : list A) :
  forall (cur : list (padded A)) (room : nat),
    1 <= room -> List.length cur + room = k ->
    List.concat (chunk_go k l cur room)
    = cur ++ map Item l
          ++ repeat Fill (fill_count k (List.length cur + List.length l)).
Proof.
  induction l as [|a rest IH]; intros cur room Hroom Hinv; cbn [chunk_go].
  - cbn [List.length map app]. rewrite Nat.add_0_r.
    rewrite fill_count_small by lia.
    destruct cur as [|c cur].
    + reflexivity.
    + cbn [List.concat]. rewrite app_nil_r.
      replace (List.length (c :: cur) =? 0) with false by reflexivity.
      do 2 f_equal. lia.
  - destruct room as [|[|room']]; [lia| |].
    + cbn [List.concat]. rewrite (IH [] k) by (cbn; lia).
      cbn [List.length map app Nat.add].
      replace (List.length cur + S (List.length rest)) with (k + List.length rest) by lia.
      rewrite fill_count_shift, <- app_assoc. reflexivity.
    + rewrite (IH (cur ++ [Item a]) (S room')) by (rewrite ?length_app; cbn; lia).
      rewrite length_app, <- app_assoc. cbn [List.length map app].
      replace (List.length cur + 1 + List.length rest)
        with (List.length cur + S (List.length rest)) by lia.
      reflexivity.
Qed.

Lemma concat_length_uniform (A : Type) (k : nat) (chunks : list (list A)) :
  Forall (fun c => List.length c = k) chunks ->
  List.length (List.concat chunks) = k * List.length chunks.
Proof.
  induction 1 as [|c chunks Hc _ IH]; [cbn; lia|].
  cbn [List.concat List.length]. rewrite length_app, IH, Hc. lia.
Qed.

Lemma unpad_items (A : Type) (l : list A) (r : nat) :
  unpad (map Item l ++ repeat Fill r) = l.
Proof.
  unfold unpad. rewrite flat_map_app.
  assert (E : flat_map (fun x : padded A => match x with Item a => [a] | Fill => [] end)
                       (repeat Fill r) = []).
  { induction r as [|r IH]; [reflexivity|exact IH]. }
  rewrite E, app_nil_r.
  induction l as [|a l IH]; [reflexivity|]. cbn. f_equal. exact IH.
Qed.

(** X1: with a chunk size of 0 [chunk_iter] yields nothing; with a chunk
    size [k >= 1] every tuple it yields has exactly [k] items and their
    number is the length of the iterable divided by [k], rounded up. *)
Theorem chunk_iter_shape (A : Type) (l : list A) (k : nat) :
  (k = 0 -> chunk_iter l k = [])
  /\ (1 <= k ->
      Forall (fun c => List.length c = k) (chunk_iter l k)
      /\ List.length (chunk_iter l k) = (List.length l + (k - 1)) / k).
Proof.
  split.
  - intros ->. destruct l; reflexivity.
  - intros Hk.
    assert (Hsizes : Forall (fun c => List.length c = k) (chunk_iter l k)).
    { apply chunk_go_sizes; cbn; lia. }
    split; [exact Hsizes|].
    pose proof (concat_length_uniform Hsizes) as Hlen.
    unfold chunk_iter in Hlen at 1.
    rewrite (@chunk_go_concat A k l [] k) in Hlen by (cbn; lia).
    cbn [app List.length Nat.add] in Hlen.
    rewrite length_app, length_map, repeat_length in Hlen.
    pose proof (fill_count_lt (List.length l) Hk) as Hfill.
    apply Nat.div_unique with (r := k - 1 - fill_count k (List.length l)); lia.
Qed.

Lemma chunk_iter_shape_witness :
  Forall (fun c => List.length c = 3) (chunk_iter [1; 2; 3; 4; 5; 6; 7] 3)
  /\ List.length (chunk_iter [1; 2; 3; 4; 5; 6; 7] 3) = (7 + (3 - 1)) / 3.
Proof.
  apply (proj2 (chunk_iter_shape [1; 2; 3; 4; 5; 6; 7] 3)). lia.
Defined.

(** X2: for a chunk size [k >= 1], the tuples of [chunk_iter] read in
    order are the items of the iterable, in their order, followed by the
    fill values that complete the last tuple; dropping the fill values
    gives the iterable back. *)
Theorem chunk_iter_content (A : Type) (l : list A) (k : nat) :
  1 <= k ->
  List.concat (chunk_iter l k)
  = map Item l ++ repeat Fill (fill_count k (List.length l))
  /\ unpad (List.concat (chunk_iter l k)) = l.
Proof.
  intros Hk.
  assert (E : List.concat (chunk_iter l k)
              = map Item l ++ repeat Fill (fill_count k (List.length l))).
  { unfold chunk_iter. rewrite (@chunk_go_concat A k l [] k) by (cbn; lia).
    reflexivity. }
  split; [exact E|]. rewrite E. apply unpad_items.
Qed.

Lemma chunk_iter_content_witness :
  List.concat (chunk_iter [1; 2; 3; 4; 5] 2)
  = map Item [1; 2; 3; 4; 5] ++ repeat Fill (fill_count 2 5)
  /\ unpad (List.concat (chunk_iter [1; 2; 3; 4; 5] 2)) = [1; 2; 3; 4; 5].
Proof.
  apply (@chunk_iter_content nat [1; 2; 3; 4; 5] 2). lia.
Defined.

(** ** The outcomes of [Simpson.__init__], [Simpson.calc] and [Simpson.parabolas] *)

(** X3: over exact rationals, [Simpson.__init__] returns the instance
    exactly when the number of partitions is even and every partition is
    longer than the first partition's length minus the exact value of the
    double [1e-3]; otherwise it raises a [ValueError], with one of its two
    messages, and nothing else. *)
Theorem Simpson_init_outcomes
        (func : AnnotatedFunction.t Q) (interval : Interval.t Q) :
  (Simpson.init func interval = Ok (Quadrature.mk func interval Method.Left)
   <-> Nat.even (List.length (Interval.partitions interval)) = true
       /\ forall first p,
           hd_error (Interval.partitions interval) = Some first ->
           In p (Interval.partitions interval) ->
           (Partition.length first - tol_Q < Partition.length p)%Q)
  /\ (Simpson.init func interval = Ok (Quadrature.mk func interval Method.Left)
      \/ Simpson.init func interval
         = Err (ValueError "Simson's rule only works with an even number of partitions.")
      \/ Simpson.init func interval
         = Err (ValueError "All partition lengths must be the same.")).
Proof.
  rewrite init_cases. split.
  - split.
    + intros Hinit.
      destruct (Nat.even (List.length (Interval.partitions interval)));
        [|discriminate Hinit].
      split; [reflexivity|]. cbn [negb] in Hinit.
      destruct (forallb (within_tolerance interval) (Interval.partitions interval))
        eqn:E; [|discriminate Hinit].
      intros first p Hfirst Hin.
      rewrite forallb_forall in E.
      apply (within_tolerance_Q interval p Hfirst). exact (E p Hin).
    + intros [Heven Hall]. rewrite Heven. cbn [negb].
      replace (forallb (within_tolerance interval) (Interval.partitions interval))
        with true; [reflexivity|].
      symmetry. apply forallb_forall. intros p Hin.
      destruct (Interval.partitions interval) as [|first rest] eqn:Hparts;
        [destruct Hin|].
      assert (Hfirst : hd_error (Interval.partitions interval) = Some first)
        by (rewrite Hparts; reflexivity).
      apply (within_tolerance_Q interval p Hfirst).
      apply Hall; [reflexivity|exact Hin].
  - destruct (negb _); [right; left; reflexivity|].
    destruct (forallb _ _); [left|right; right]; reflexivity.
Qed.

Lemma Simpson_init_outcomes_witness :
  Nat.even (List.length (Interval.partitions I02)) = true
  /\ forall first p,
      hd_error (Interval.partitions I02) = Some first ->
      In p (Interval.partitions I02) ->
      (Partition.length first - tol_Q < Partition.length p)%Q.
Proof.
  apply (proj1 (proj1 (Simpson_init_outcomes f_sq I02))). reflexivity.
Defined.

Section CalcReturns.
Context {num : Type} `{Number num}.

(** X4: on a Simpson instance over an interval with at least one
    partition, [calc()] returns a number, in every arithmetic: it raises
    nothing. *)
Theorem Simpson_calc_returns
        (func : AnnotatedFunction.t num) (interval : Interval.t num)
        (self : Quadrature.t num) (g : rng num) :
  Simpson.init func interval = Ok self ->
  Interval.partitions interval <> [] ->
  exists v, Simpson.calc self g = (Ok v, g).
Proof.
  intros Hinit Hne. apply init_method in Hinit. subst self.
  set (s := Quadrature.mk func interval Method.Left).
  assert (Hpts : forall g1, exists pts last,
               Simpson.points s g1 = (Ok (pts ++ [last]), g1)
               /\ List.length pts = List.length (Interval.partitions interval)).
  { intros g1. eexists; eexists. split.
    - apply endpoint_points. apply points_left.
    - apply length_map. }
  destruct (Hpts g) as (pts & last & Hrun & Hlen).
  assert (H0 : exists p0, Py.getitem (pts ++ [last]) 0 = Ok p0).
  { destruct pts as [|p0 pts]; eexists; apply getitem_head. }
  destruct H0 as [p0 H0].
  unfold Simpson.calc.
  rewrite (@bind_run _ _ _ _ _ _ _ _ Hrun), (@bind_lift _ _ _ _ _ _ _ H0).
  rewrite (@bind_run _ _ _ _ _ _ _ _ Hrun).
  rewrite (@bind_lift _ _ _ _ _ _ _ (getitem_last pts last)).
  rewrite (@bind_run _ _ _ _ _ _ _ _ Hrun).
  rewrite (@bind_run _ _ _ _ _ _ _ _ Hrun).
  unfold Interval.getitem. subst s. cbn [Quadrature.interval].
  destruct (Interval.partitions interval) as [|first rest]; [contradiction|].
  eexists. rewrite (@bind_lift _ _ _ _ _ _ _ (getitem_head first rest)).
  reflexivity.
Qed.

End CalcReturns.

Lemma Simpson_calc_returns_witness :
  (exists v, Simpson.calc (Quadrature.mk f_sq I02 Method.Left) g0 = (Ok v, g0))
  /\ (exists v, Simpson.calc (Quadrature.mk f_sq F02 Method.Left) g0 = (Ok v, g0)).
Proof.
  split.
  - apply (@Simpson_calc_returns Q _ f_sq I02
             (Quadrature.mk f_sq I02 Method.Left) g0);
      [reflexivity|discriminate].
  - apply (@Simpson_calc_returns PrimFloat.float _ f_sq F02
             (Quadrature.mk f_sq F02 Method.Left) g0);
      [vm_compute; reflexivity|discriminate].
Defined.

Lemma truediv_zero (a b : Q) : (b == 0)%Q -> truediv a b = Err ZeroDivisionError.
Proof.
  intros Hb. unfold truediv. Qops.
  apply Qeq_bool_iff in Hb. rewrite Hb. reflexivity.
Qed.

(** X5: on a Simpson instance whose first partition has length zero,
    [parabolas()] raises [ZeroDivisionError]: the first pair of partitions
    already divides by [2*size**2]. *)
Theorem Simpson_parabolas_zero_length
        (func : AnnotatedFunction.t Q) (interval : Interval.t Q)
        (self : Quadrature.t Q) (first : Partition.t Q) (g : rng Q) :
  Simpson.init func interval = Ok self ->
  hd_error (Interval.partitions interval) = Some first ->
  (Partition.length first == 0)%Q ->
  Simpson.parabolas self g = (Err ZeroDivisionError, g).
Proof.
  intros Hinit Hfirst Hzero.
  pose proof (init_even _ _ Hinit) as Heven.
  apply init_method in Hinit. subst self.
  unfold Simpson.parabolas, Interval.getitem, Interval.iter.
  cbn [Quadrature.interval Quadrature.func].
  destruct (Interval.partitions interval) as [|a [|b rest]];
    try discriminate.
  inversion Hfirst; subst a.
  rewrite (@bind_lift _ _ _ _ _ _ _ (getitem_head first (b :: rest))).
  unfold lift. rewrite chunk_iter_pair. cbn [Simpson.for_append].
  unfold Simpson.parabola. cbn [Simpson.attr_start Simpson.attr_end rbind].
  change (Partition.length first ** 2)%num
    with (Ok (Partition.length first * Partition.length first)%Q).
  cbn [rbind].
  rewrite truediv_zero; [reflexivity|].
  Qops. rewrite Hzero. reflexivity.
Qed.

Lemma Simpson_parabolas_zero_length_witness :
  Simpson.parabolas (Quadrature.mk f_sq I001 Method.Left) g0
  = (Err ZeroDivisionError, g0).
Proof.
  apply (@Simpson_parabolas_zero_length f_sq I001
           (Quadrature.mk f_sq I001 Method.Left)
           (Partition.mk 0%Q 0%Q) g0);
    reflexivity.
Defined.

(** X6: on a Simpson instance whose first partition has a non-zero length
    [h], [parabolas()] returns one triple per pair of partitions, whatever
    the lengths of the other partitions, and the parabola of each triple
    passes through the three y-values sampled on its pair: it takes them
    at [-h], at [0] and at [h]. *)
Theorem Simpson_parabolas_interpolate
        (func : AnnotatedFunction.t Q) (interval : Interval.t Q)
        (self : Quadrature.t Q) (first : Partition.t Q) (g : rng Q) :
  Simpson.init func interval = Ok self ->
  hd_error (Interval.partitions interval) = Some first ->
  ~ (Partition.length first == 0)%Q ->
  exists ts,
    Simpson.parabolas self g = (Ok ts, g)
    /\ List.length ts = partition_count self / 2
    /\ forall k, k < partition_count self / 2 ->
         let h := Partition.length first in
         let ys := pair_ys (AnnotatedFunction.func func)
                           (Interval.partitions interval) k in
         let coeffs := nth k ts (0, 0, 0)%Q in
         (parabola_eval coeffs (- h) == fst (fst ys)
          /\ parabola_eval coeffs 0 == snd (fst ys)
          /\ parabola_eval coeffs h == snd ys)%Q.
Proof.
  intros Hinit Hfirst Hsize.
  pose proof (init_even _ _ Hinit) as Heven.
  apply init_method in Hinit. subst self.
  apply Nat.even_spec in Heven. destruct Heven as [n Hn].
  destruct (@Simpson_parabolas_run (Quadrature.mk func interval Method.Left)
                                   first n g Hfirst Hsize Hn)
    as (ts & Hrun & Hlen & Hj).
  exists ts.
  assert (Hhalf : partition_count (Quadrature.mk func interval Method.Left) / 2 = n).
  { unfold partition_count. cbn [Quadrature.interval]. rewrite Hn. dlia. }
  rewrite Hhalf. split; [exact Hrun|]. split; [exact Hlen|].
  intros k Hk. specialize (Hj k Hk).
  cbn [Quadrature.interval Quadrature.func] in Hj. cbv zeta.
  destruct (pair_ys (AnnotatedFunction.func func) (Interval.partitions interval) k)
    as [[y0 y1] y2].
  destruct (nth k ts (0, 0, 0)%Q) as [[A B] C].
  destruct Hj as (HA & HB & HC).
  unfold parabola_eval. cbn [fst snd].
  rewrite HA, HB, HC. unfold parabola_A, parabola_B.
  repeat split; field; exact Hsize.
Qed.

Lemma Simpson_parabolas_interpolate_witness :
  exists ts,
    Simpson.parabolas (Quadrature.mk f_sq I013 Method.Left) g0 = (Ok ts, g0)
    /\ List.length ts = 1
    /\ forall k, k < 1 ->
         let ys := pair_ys (AnnotatedFunction.func f_sq) (Interval.partitions I013) k in
         let coeffs := nth k ts (0, 0, 0)%Q in
         (parabola_eval coeffs (- (1 - 0)) == fst (fst ys)
          /\ parabola_eval coeffs 0 == snd (fst ys)
          /\ parabola_eval coeffs (1 - 0) == snd ys)%Q.
Proof.
  apply (@Simpson_parabolas_interpolate f_sq I013
           (Quadrature.mk f_sq I013 Method.Left) (Partition.mk 0%Q 1%Q) g0).
  - reflexivity.
  - reflexivity.
  - discriminate.
Defined.

(** ** Sums over the partitions *)

Lemma sum_Q_ext (A : Type) (v w : A -> Q) (l : list A) :
  (forall a, In a l -> (v a == w a)%Q) ->
  (sum_Q (map v l) == sum_Q (map w l))%Q.
Proof.
  induction l as [|a l IH]; intros Hvw; cbn [map sum_Q fold_right].
  - reflexivity.
  - rewrite (Hvw a (or_introl eq_refl)).
    unfold sum_Q in IH. rewrite IH; [reflexivity|].
    intros b Hb. apply Hvw. right. exact Hb.
Qed.

Lemma sum_Q_plus (A : Type) (v w : A -> Q) (l : list A) :
  (sum_Q (map (fun a => v a + w a) l) == sum_Q (map v l) + sum_Q (map w l))%Q.
Proof.
  induction l as [|a l IH]; cbn [map sum_Q fold_right].
  - ring.
  - unfold sum_Q in IH. rewrite IH. ring.
Qed.

Lemma sum_Q_le (A : Type) (v w : A -> Q) (l : list A) :
  (forall a, In a l -> (v a <= w a)%Q) ->
  (sum_Q (map v l) <= sum_Q (map w l))%Q.
Proof.
  induction l as [|a l IH]; intros Hvw; cbn [map sum_Q fold_right].
  - apply Qle_refl.
  - apply Qplus_le_compat.
    + apply Hvw. left. reflexivity.
    + apply IH. intros b Hb. apply Hvw. right. exact Hb.
Qed.

(** The telescoping sum along contiguous partitions. *)
Lemma chain_telescope (F : Q -> Q) (a b : Q) (parts : list (Partition.t Q)) :
  respects_Qeq F ->
  chain a parts b ->
  (sum_Q (map (fun p => F (Partition.end_ p) - F (Partition.start p)) parts)
   == F b - F a)%Q.
Proof.
  intros HF. revert a. induction parts as [|p rest IH]; intros a Hchain.
  - cbn in *. rewrite (HF a b Hchain). ring.
  - destruct Hchain as (Hstart & _ & Hrest).
    cbn [map sum_Q fold_right]. unfold sum_Q in IH. rewrite (IH _ Hrest).
    rewrite (HF _ _ Hstart). ring.
Qed.

(** ** [Riemann.calc] with a deterministic method *)

Lemma combine_map_r (A B : Type) (v : A -> B) (l : list A) :
  combine l (map v l) = map (fun a => (a, v a)) l.
Proof. induction l as [|a l IH]; [reflexivity|]. cbn. f_equal. exact IH. Qed.

Lemma choose_deterministic (m : Method.t) (f : Q -> Q) (p : Partition.t Q) (g : rng Q) :
  Method.deterministic m = true ->
  Method.choose m f p g = (Ok (Point.mk (abscissa m p 0) (f (abscissa m p 0))), g).
Proof. destruct m; intros Hm; try discriminate Hm; reflexivity. Qed.

Lemma points_abscissa (f : AnnotatedFunction.t Q) (i : Interval.t Q) (m : Method.t)
      (g : rng Q) :
  Method.deterministic m = true ->
  Quadrature.points (Quadrature.mk f i m) g
  = (Ok (map (fun p => Point.mk (abscissa m p 0)
                                (AnnotatedFunction.func f (abscissa m p 0)))
             (Interval.partitions i)), g).
Proof.
  intros Hm. unfold Quadrature.points, Interval.iter.
  cbn [Quadrature.method Quadrature.func Quadrature.interval].
  induction (Interval.partitions i) as [|p parts IH]; [reflexivity|].
  cbn [mapM map].
  rewrite (@bind_run _ _ _ _ _ _ _ _ (@choose_deterministic m _ p g Hm)).
  rewrite (@bind_run _ _ _ _ _ _ _ _ IH). reflexivity.
Qed.

(** With a deterministic method [Riemann.calc] returns the sum of
    [length * f(x)] over the partitions. *)
Lemma Riemann_calc_rule (f : AnnotatedFunction.t Q) (i : Interval.t Q) (m : Method.t)
      (g : rng Q) :
  Method.deterministic m = true ->
  exists v,
    Riemann.calc (Riemann.init f i m) g = (Ok v, g)
    /\ (v == riemann_rule m (AnnotatedFunction.func f) (Interval.partitions i))%Q.
Proof.
  intros Hm. eexists. split.
  - unfold Riemann.calc, Riemann.points, Riemann.init, Quadrature.init.
    rewrite (@bind_run _ _ _ _ _ _ _ _ (@points_abscissa f i m g Hm)). reflexivity.
  - unfold Interval.iter. cbn [Quadrature.interval]. Qops.
    rewrite combine_map_r.
    rewrite (fold_left_sum
               (fun pp : Partition.t Q * Point.t Q =>
                  (Partition.length (fst pp) * Point.y (snd pp))%Q)).
    rewrite map_map. cbn [fst snd Point.y]. unfold riemann_rule.
    change (inject_Z 0) with 0%Q. ring.
Qed.

Lemma Trapezoid_calc_rule (f : AnnotatedFunction.t Q) (i : Interval.t Q) (g : rng Q) :
  exists v,
    Trapezoid.calc (Trapezoid.init f i) g = (Ok v, g)
    /\ (v == trapezoid_sum (AnnotatedFunction.func f) (Interval.partitions i))%Q.
Proof.
  eexists. split; [reflexivity|].
  unfold trapezoid_sum, Interval.iter, Partition.length. Qops.
  cbn [Trapezoid.init Quadrature.init Quadrature.interval Quadrature.func].
  rewrite (fold_left_sum
             (fun p => ((AnnotatedFunction.func f (Partition.start p)
                         + AnnotatedFunction.func f (Partition.end_ p)) / 2
                        * (Partition.end_ p - Partition.start p))%Q)).
  ring.
Qed.

(** ** How the rules relate *)

(** X7: on every function and interval, [Trapezoid.calc()] is the mean of
    [Riemann.calc()] with the [Left] method and [Riemann.calc()] with the
    [Right] method. *)
Theorem Trapezoid_mean_of_Left_Right
        (func : AnnotatedFunction.t Q) (interval : Interval.t Q) (g : rng Q) :
  exists l r t,
    Riemann.calc (Riemann.init func interval Method.Left) g = (Ok l, g)
    /\ Riemann.calc (Riemann.init func interval Method.Right) g = (Ok r, g)
    /\ Trapezoid.calc (Trapezoid.init func interval) g = (Ok t, g)
    /\ (t == (l + r) / 2)%Q.
Proof.
  destruct (@Riemann_calc_rule func interval Method.Left g eq_refl) as (l & Hl & El).
  destruct (@Riemann_calc_rule func interval Method.Right g eq_refl) as (r & Hr & Er).
  destruct (Trapezoid_calc_rule func interval g) as (t & Ht & Et).
  exists l, r, t. repeat split; try assumption.
  rewrite El, Er, Et. unfold riemann_rule, trapezoid_sum.
  rewrite <- sum_Q_plus.
  setoid_replace
    ((sum_Q (map (fun a : Partition.t Q =>
                    Partition.length a * AnnotatedFunction.func func (abscissa Method.Left a 0)
                    + Partition.length a * AnnotatedFunction.func func (abscissa Method.Right a 0))
                 (Interval.partitions interval))) / 2)%Q
    with ((1 # 2) * sum_Q (map (fun a : Partition.t Q =>
                    Partition.length a * AnnotatedFunction.func func (abscissa Method.Left a 0)
                    + Partition.length a * AnnotatedFunction.func func (abscissa Method.Right a 0))
                 (Interval.partitions interval)))%Q
    by field.
  rewrite <- sum_Q_scale. apply sum_Q_ext. intros p _.
  unfold abscissa, Partition.length. Qops. field.
Qed.

Lemma mean_bounds (s e a b : Q) :
  (s <= e)%Q -> (a <= b)%Q ->
  ((e - s) * a <= (a + b) / 2 * (e - s))%Q
  /\ ((a + b) / 2 * (e - s) <= (e - s) * b)%Q.
Proof.
  intros Hse Hab.
  assert (Hprod : (0 <= (e - s) * (b - a))%Q)
    by (apply Qmult_le_0_compat; lra).
  split.
  - setoid_replace ((a + b) / 2 * (e - s))%Q
      with ((e - s) * a + (e - s) * (b - a) * (1 # 2))%Q by field.
    lra.
  - setoid_replace ((a + b) / 2 * (e - s))%Q
      with ((e - s) * b - (e - s) * (b - a) * (1 # 2))%Q by field.
    lra.
Qed.

(** X8: when every partition has [start <= end] and the function is
    nondecreasing, the three results are ordered: [Riemann] with [Left],
    then [Trapezoid], then [Riemann] with [Right]. *)
Theorem Left_Trapezoid_Right_ordered
        (func : AnnotatedFunction.t Q) (interval : Interval.t Q) (g : rng Q) :
  Forall (fun p => Partition.start p <= Partition.end_ p)%Q
         (Interval.partitions interval) ->
  (forall x y, (x <= y)%Q ->
               (AnnotatedFunction.func func x <= AnnotatedFunction.func func y)%Q) ->
  exists l r t,
    Riemann.calc (Riemann.init func interval Method.Left) g = (Ok l, g)
    /\ Riemann.calc (Riemann.init func interval Method.Right) g = (Ok r, g)
    /\ Trapezoid.calc (Trapezoid.init func interval) g = (Ok t, g)
    /\ (l <= t)%Q /\ (t <= r)%Q.
Proof.
  intros Hord Hmono.
  destruct (@Riemann_calc_rule func interval Method.Left g eq_refl) as (l & Hl & El).
  destruct (@Riemann_calc_rule func interval Method.Right g eq_refl) as (r & Hr & Er).
  destruct (Trapezoid_calc_rule func interval g) as (t & Ht & Et).
  exists l, r, t. repeat split; try assumption.
  - rewrite El, Et. unfold riemann_rule, trapezoid_sum.
    apply sum_Q_le. intros p Hp.
    rewrite Forall_forall in Hord. specialize (Hord p Hp).
    specialize (Hmono _ _ Hord).
    unfold abscissa, Partition.length. Qops. apply mean_bounds; assumption.
  - rewrite Er, Et. unfold riemann_rule, trapezoid_sum.
    apply sum_Q_le. intros p Hp.
    rewrite Forall_forall in Hord. specialize (Hord p Hp).
    specialize (Hmono _ _ Hord).
    unfold abscissa, Partition.length. Qops. apply mean_bounds; assumption.
Qed.

Lemma Left_Trapezoid_Right_ordered_witness :
  exists l r t,
    Riemann.calc (Riemann.init f_id I013 Method.Left) g0 = (Ok l, g0)
    /\ Riemann.calc (Riemann.init f_id I013 Method.Right) g0 = (Ok r, g0)
    /\ Trapezoid.calc (Trapezoid.init f_id I013) g0 = (Ok t, g0)
    /\ (l <= t)%Q /\ (t <= r)%Q.
Proof.
  apply (@Left_Trapezoid_Right_ordered f_id I013 g0).
  - repeat constructor; discriminate.
  - intros x y Hxy. exact Hxy.
Defined.

(** ** Linearity in the function *)

(** X9: with a deterministic method [Riemann.calc()] is linear in the
    function: on [c*f1 + f2] it returns [c] times its result on [f1] plus
    its result on [f2]; so is [Trapezoid.calc()]. *)
Theorem calc_linear
        (f1 f2 : Q -> Q) (c : Q) (s s1 s2 : option String.string)
        (interval : Interval.t Q) (method : Method.t) (g : rng Q) :
  Method.deterministic method = true ->
  let f := AnnotatedFunction.mk (fun x => c * f1 x + f2 x)%Q s in
  (exists v v1 v2,
      Riemann.calc (Riemann.init f interval method) g = (Ok v, g)
      /\ Riemann.calc (Riemann.init (AnnotatedFunction.mk f1 s1) interval method) g
         = (Ok v1, g)
      /\ Riemann.calc (Riemann.init (AnnotatedFunction.mk f2 s2) interval method) g
         = (Ok v2, g)
      /\ (v == c * v1 + v2)%Q)
  /\ (exists t t1 t2,
         Trapezoid.calc (Trapezoid.init f interval) g = (Ok t, g)
         /\ Trapezoid.calc (Trapezoid.init (AnnotatedFunction.mk f1 s1) interval) g
            = (Ok t1, g)
         /\ Trapezoid.calc (Trapezoid.init (AnnotatedFunction.mk f2 s2) interval) g
            = (Ok t2, g)
         /\ (t == c * t1 + t2)%Q).
Proof.
  intros Hm f. split.
  - destruct (@Riemann_calc_rule f interval method g Hm) as (v & Hv & Ev).
    destruct (@Riemann_calc_rule (AnnotatedFunction.mk f1 s1) interval method g Hm)
      as (v1 & Hv1 & Ev1).
    destruct (@Riemann_calc_rule (AnnotatedFunction.mk f2 s2) interval method g Hm)
      as (v2 & Hv2 & Ev2).
    exists v, v1, v2. repeat split; try assumption.
    rewrite Ev, Ev1, Ev2. unfold riemann_rule.
    rewrite <- sum_Q_scale, <- sum_Q_plus.
    apply sum_Q_ext. intros p _. cbn [AnnotatedFunction.func f]. ring.
  - destruct (Trapezoid_calc_rule f interval g) as (t & Ht & Et).
    destruct (Trapezoid_calc_rule (AnnotatedFunction.mk f1 s1) interval g)
      as (t1 & Ht1 & Et1).
    destruct (Trapezoid_calc_rule (AnnotatedFunction.mk f2 s2) interval g)
      as (t2 & Ht2 & Et2).
    exists t, t1, t2. repeat split; try assumption.
    rewrite Et, Et1, Et2. unfold trapezoid_sum.
    rewrite <- sum_Q_scale, <- sum_Q_plus.
    apply sum_Q_ext. intros p _. cbn [AnnotatedFunction.func f]. field.
Qed.

Lemma calc_linear_witness :
  exists v v1 v2,
    Riemann.calc (Riemann.init (AnnotatedFunction.mk (fun x => 3 * (x * x) + x)%Q None)
                               I013 Method.Midpoint) g0 = (Ok v, g0)
    /\ Riemann.calc (Riemann.init (AnnotatedFunction.mk (fun x => x * x)%Q None)
                                  I013 Method.Midpoint) g0 = (Ok v1, g0)
    /\ Riemann.calc (Riemann.init (AnnotatedFunction.mk (fun x => x) None)
                                  I013 Method.Midpoint) g0 = (Ok v2, g0)
    /\ (v == 3 * v1 + v2)%Q.
Proof.
  apply (proj1 (@calc_linear (fun x => x * x)%Q (fun x => x) 3%Q None None None
                             I013 Method.Midpoint g0 eq_refl)).
Defined.

(** ** Exactness *)

Lemma cubic_primitive_respects (c3 c2 c1 c0 : Q) :
  respects_Qeq (cubic_primitive c3 c2 c1 c0).
Proof. intros x y E. unfold cubic_primitive. rewrite E. reflexivity. Qed.

(** X10: on a linear function [c1*x + c0], over partitions that are
    contiguous from [start] to [end], of any lengths, [Trapezoid.calc()]
    and [Riemann.calc()] with the [Midpoint] method both return the exact
    integral. *)
Theorem linear_exact
        (c1 c0 : Q) (s : option String.string) (interval : Interval.t Q) (g : rng Q) :
  chain (Interval.start interval) (Interval.partitions interval)
        (Interval.end_ interval) ->
  let f := AnnotatedFunction.mk (cubic 0 0 c1 c0) s in
  let exact := (cubic_primitive 0 0 c1 c0 (Interval.end_ interval)
                - cubic_primitive 0 0 c1 c0 (Interval.start interval))%Q in
  exists t v,
    Trapezoid.calc (Trapezoid.init f interval) g = (Ok t, g)
    /\ Riemann.calc (Riemann.init f interval Method.Midpoint) g = (Ok v, g)
    /\ (t == exact)%Q /\ (v == exact)%Q.
Proof.
  intros Hchain f exact.
  destruct (Trapezoid_calc_rule f interval g) as (t & Ht & Et).
  destruct (@Riemann_calc_rule f interval Method.Midpoint g eq_refl) as (v & Hv & Ev).
  exists t, v. split; [exact Ht|]. split; [exact Hv|].
  pose proof (@chain_telescope _ _ _ _ (cubic_primitive_respects 0 0 c1 c0) Hchain) as Htel.
  split.
  - rewrite Et. unfold exact. rewrite <- Htel. unfold trapezoid_sum.
    apply sum_Q_ext. intros p _.
    cbn [AnnotatedFunction.func f]. unfold cubic, cubic_primitive. field.
  - rewrite Ev. unfold exact. rewrite <- Htel. unfold riemann_rule.
    apply sum_Q_ext. intros p _.
    cbn [AnnotatedFunction.func f abscissa]. unfold Partition.length. Qops.
    unfold cubic, cubic_primitive. field.
Qed.

Lemma linear_exact_witness :
  exists t v,
    Trapezoid.calc (Trapezoid.init (AnnotatedFunction.mk (cubic 0 0 2 1) None) I013) g0
    = (Ok t, g0)
    /\ Riemann.calc (Riemann.init (AnnotatedFunction.mk (cubic 0 0 2 1) None) I013
                                  Method.Midpoint) g0 = (Ok v, g0)
    /\ (t == cubic_primitive 0 0 2 1 3 - cubic_primitive 0 0 2 1 0)%Q
    /\ (v == cubic_primitive 0 0 2 1 3 - cubic_primitive 0 0 2 1 0)%Q.
Proof.
  apply (@linear_exact 2 1 None I013 g0).
  cbn. repeat split; try reflexivity; discriminate.
Defined.

(** The y of a chosen point is the function's value at its x. *)
Lemma choose_y (m : Method.t) (f : Q -> Q) (p : Partition.t Q) (g g' : rng Q)
      (pt : Point.t Q) :
  Method.choose m f p g = (Ok pt, g') -> Point.y pt = f (Point.x pt).
Proof.
  destruct m; cbn [Method.choose ret].
  - intros E. inversion E. reflexivity.
  - intros E. inversion E. reflexivity.
  - intros E. inversion E. reflexivity.
  - destruct (is_zero (Partition.length p)); [discriminate|].
    cbn. intros E. inversion E. reflexivity.
Qed.

Lemma points_y (q : Quadrature.t Q) (g g' : rng Q) (pts : list (Point.t Q)) :
  Quadrature.points q g = (Ok pts, g') ->
  Forall (fun pt => Point.y pt = AnnotatedFunction.func (Quadrature.func q) (Point.x pt))
         pts.
Proof.
  unfold Quadrature.points, Interval.iter.
  revert g pts.
  induction (Interval.partitions (Quadrature.interval q)) as [|p parts IH];
    intros g pts Hrun.
  - cbn in Hrun. inversion Hrun. constructor.
  - cbn [mapM] in Hrun. unfold bind at 1 in Hrun.
    destruct (Method.choose (Quadrature.method q)
                            (AnnotatedFunction.func (Quadrature.func q)) p g)
      as [[pt|e] g1] eqn:Ept; [|discriminate Hrun].
    unfold bind at 1 in Hrun.
    destruct (mapM _ parts g1) as [[pts'|e] g2] eqn:Erest; [|discriminate Hrun].
    cbn in Hrun. inversion Hrun; subst.
    constructor; [exact (choose_y _ _ _ _ Ept)|exact (IH _ _ Erest)].
Qed.

Lemma constant_sum (c : Q) (parts : list (Partition.t Q)) :
  forall pts : list (Point.t Q),
    List.length pts = List.length parts ->
    Forall (fun pt => Point.y pt = c) pts ->
    (sum_Q (map (fun pp : Partition.t Q * Point.t Q =>
                   Partition.length (fst pp) * Point.y (snd pp))
                (combine parts pts))
     == c * sum_Q (map (fun p => Partition.end_ p - Partition.start p) parts))%Q.
Proof.
  induction parts as [|p parts IH]; intros pts Hlen Hy.
  - cbn. ring.
  - destruct pts as [|pt pts]; [discriminate Hlen|].
    inversion Hy as [|? ? Hpt Hrest]; subst.
    cbn [combine map sum_Q fold_right fst snd].
    unfold sum_Q in IH. rewrite (IH pts) by (cbn in Hlen; lia || assumption).
    unfold Partition.length. Qops. ring.
Qed.

(** X11: on a constant function [c], over partitions that are contiguous
    from [start] to [end], [Riemann.calc()] returns [c * (end - start)]
    with every method, the [Random] method included, whatever the draws. *)
Theorem Riemann_constant
        (c : Q) (s : option String.string) (interval : Interval.t Q)
        (method : Method.t) (g : rng Q) :
  chain (Interval.start interval) (Interval.partitions interval)
        (Interval.end_ interval) ->
  can_choose method interval ->
  exists v g',
    Riemann.calc (Riemann.init (AnnotatedFunction.mk (fun _ => c) s) interval method) g
    = (Ok v, g')
    /\ (v == c * (Interval.end_ interval - Interval.start interval))%Q.
Proof.
  intros Hchain Hcan.
  set (q := Riemann.init (AnnotatedFunction.mk (fun _ => c) s) interval method).
  destruct (points_total q g Hcan) as (pts & g' & Hpts).
  pose proof (points_length q g Hpts) as Hlen.
  pose proof (points_y q g Hpts) as Hy.
  eexists; exists g'. split.
  - unfold Riemann.calc, Riemann.points.
    rewrite (@bind_run _ _ _ _ _ _ _ _ Hpts). reflexivity.
  - unfold Interval.iter. subst q.
    cbn [Riemann.init Quadrature.init Quadrature.interval]. Qops.
    rewrite (fold_left_sum
               (fun pp : Partition.t Q * Point.t Q =>
                  (Partition.length (fst pp) * Point.y (snd pp))%Q)).
    rewrite (@constant_sum c (Interval.partitions interval) pts Hlen Hy).
    assert (Hid : respects_Qeq (fun x => x)) by (intros x y E; exact E).
    rewrite (@chain_telescope _ _ _ _ Hid Hchain).
    change (inject_Z 0) with 0%Q. ring.
Qed.

Lemma Riemann_constant_witness :
  exists v g',
    Riemann.calc (Riemann.init (AnnotatedFunction.mk (fun _ => 5%Q) None) I013
                               Method.Random)
                 (mk_rng (fun k => 1 # Pos.of_nat (k + 2)) 0)
    = (Ok v, g')
    /\ (v == 5 * (3 - 0))%Q.
Proof.
  apply (@Riemann_constant 5%Q None I013 Method.Random).
  - cbn. repeat split; try reflexivity; discriminate.
  - intros _. repeat constructor.
Defined.

(** ** Simpson's weighted sum, pair by pair *)

Lemma sum_Q_app (l1 l2 : list Q) :
  (sum_Q (l1 ++ l2) == sum_Q l1 + sum_Q l2)%Q.
Proof.
  unfold sum_Q. induction l1 as [|a l1 IH]; cbn [app fold_right].
  - ring.
  - rewrite IH. ring.
Qed.

Lemma sum_Q_first (v : nat -> Q) (k : nat) :
  Qeq (sum_Q (map v (seq 0 (S k))))
      (Qplus (v 0) (sum_Q (map (fun j => v (S j)) (seq 0 k)))).
Proof.
  rewrite <- cons_seq, <- seq_shift. cbn [map]. rewrite map_map.
  reflexivity.
Qed.

Lemma sum_Q_last (v : nat -> Q) (k : nat) :
  Qeq (sum_Q (map v (seq 0 (S k))))
      (Qplus (sum_Q (map v (seq 0 k))) (v k)).
Proof.
  rewrite seq_S, map_app, sum_Q_app. cbn [map sum_Q fold_right Nat.add]. ring.
Qed.

(** The term of the pair number [j]: [y_2j + 4*y_(2j+1) + y_(2j+2)]. *)
Lemma weighted_pairs (ys : list Q) (k : nat) :
  Qeq (simpson_weighted ys (2 * S k))
      (sum_Q (map (fun j => Qplus (Qplus (y_at ys (2 * j))
                                         (Qmult 4 (y_at ys (2 * j + 1))))
                                  (y_at ys (2 * j + 2)))
                  (seq 0 (S k)))).
Proof.
  unfold simpson_weighted.
  rewrite odd_indices, even_indices.
  replace (S (2 * S k - 1)) with (2 * S k) by lia.
  unfold Py.range.
  replace ((2 * S k - 1 + (2 - 1)) / 2) with (S k) by dlia.
  replace ((2 * S k - 2 + (2 - 1)) / 2) with k by dlia.
  rewrite !map_map.
  rewrite (sum_Q_plus (fun j => Qplus (y_at ys (2 * j)) (Qmult 4 (y_at ys (2 * j + 1))))
                      (fun j => y_at ys (2 * j + 2))).
  rewrite (sum_Q_plus (fun j => y_at ys (2 * j)) (fun j => Qmult 4 (y_at ys (2 * j + 1)))).
  rewrite (sum_Q_scale 4%Q (fun j => y_at ys (2 * j + 1))).
  rewrite (sum_Q_first (fun j => y_at ys (2 * j))).
  rewrite (sum_Q_last (fun j => y_at ys (2 * j + 2))).
  replace (2 * 0) with 0 by lia.
  replace (2 * k + 2) with (2 * S k) by lia.
  rewrite (map_ext (fun x => y_at ys (1 + x * 2)) (fun j => y_at ys (2 * j + 1)))
    by (intros j; f_equal; lia).
  rewrite (map_ext (fun x => y_at ys (2 + x * 2)) (fun j => y_at ys (2 * j + 2)))
    by (intros j; f_equal; lia).
  rewrite (map_ext (fun j => y_at ys (2 * S j)) (fun j => y_at ys (2 * j + 2)))
    by (intros j; f_equal; lia).
  ring.
Qed.

(** ** The sample points along contiguous partitions *)

Lemma endpoint_ys_points (f : Q -> Q) (parts : list (Partition.t Q)) (b : Q) :
  map (@Point.y Q) (map (left_point f) parts ++ [Point.mk b (f b)])
  = endpoint_ys f parts b.
Proof.
  unfold endpoint_ys. rewrite map_app, map_map. reflexivity.
Qed.

Lemma endpoint_ys_start (f : Q -> Q) (parts : list (Partition.t Q)) (b : Q) (i : nat) :
  i < List.length parts ->
  y_at (endpoint_ys f parts b) i
  = f (Partition.start (nth i parts (Partition.mk 0%Q 0%Q))).
Proof.
  intros Hi. unfold y_at, endpoint_ys.
  rewrite app_nth1 by (rewrite length_map; exact Hi).
  rewrite (nth_indep _ 0%Q (f (Partition.start (Partition.mk 0%Q 0%Q))))
    by (rewrite length_map; exact Hi).
  exact (map_nth (fun p => f (Partition.start p)) parts (Partition.mk 0%Q 0%Q) i).
Qed.

Lemma endpoint_ys_end (f : Q -> Q) (parts : list (Partition.t Q)) (b : Q) :
  y_at (endpoint_ys f parts b) (List.length parts) = f b.
Proof.
  unfold y_at, endpoint_ys.
  rewrite app_nth2 by (rewrite length_map; lia).
  rewrite length_map, Nat.sub_diag. reflexivity.
Qed.

(** Along contiguous partitions the y-value number [i+1] is the function
    at the end of the partition number [i]. *)
Lemma endpoint_ys_next (f : Q -> Q) (b : Q) :
  respects_Qeq f ->
  forall (parts : list (Partition.t Q)) (a : Q) (i : nat),
    chain a parts b ->
    i < List.length parts ->
    (y_at (endpoint_ys f parts b) (S i)
     == f (Partition.end_ (nth i parts (Partition.mk 0%Q 0%Q))))%Q.
Proof.
  intros Hf. induction parts as [|p rest IH]; intros a i Hchain Hi;
    [cbn in Hi; lia|].
  destruct Hchain as (_ & _ & Hrest).
  destruct i as [|i].
  - cbn [nth]. destruct rest as [|q rest].
    + cbn in Hrest. cbn. apply Hf. symmetry. exact Hrest.
    + destruct Hrest as (Hq & _). cbn. apply Hf. exact Hq.
  - cbn [nth]. cbn in Hi.
    apply (IH (Partition.end_ p) i Hrest). lia.
Qed.

(** Contiguous partitions of one length [h] start on the grid of step [h]. *)
Lemma chain_grid (h b : Q) :
  forall (parts : list (Partition.t Q)) (a : Q),
    chain a parts b ->
    Forall (fun p => Partition.length p == h)%Q parts ->
    (forall i, i < List.length parts ->
               (Partition.start (nth i parts (Partition.mk 0%Q 0%Q)) == grid a h i)%Q)
    /\ (b == grid a h (List.length parts))%Q.
Proof.
  induction parts as [|p rest IH]; intros a Hchain Hh.
  - split; [intros i Hi; cbn in Hi; lia|].
    cbn in Hchain. unfold grid. cbn. rewrite <- Hchain. ring.
  - destruct Hchain as (Hstart & _ & Hrest).
    inversion Hh as [|? ? Hp Hh']; subst.
    destruct (IH _ Hrest Hh') as [Hi Hb].
    assert (Hend : (Partition.end_ p == a + h)%Q).
    { unfold Partition.length in Hp. Qops. rewrite <- Hstart. lra. }
    assert (Hshift : forall i, (grid (Partition.end_ p) h i == grid a h (S i))%Q).
    { intros i. unfold grid. rewrite Hend, Nat2Z.inj_succ.
      unfold Z.succ. rewrite inject_Z_plus. ring. }
    split.
    + intros [|i] Hlt.
      * cbn [nth]. rewrite Hstart. unfold grid. cbn. ring.
      * cbn [nth]. rewrite <- Hshift. apply Hi. cbn in Hlt. lia.
    + cbn [List.length]. rewrite <- Hshift. exact Hb.
Qed.

Lemma index_telescope (F : nat -> Q) (k : nat) :
  Qeq (sum_Q (map (fun j => Qminus (F (S j)) (F j)) (seq 0 k)))
      (Qminus (F k) (F 0)).
Proof.
  induction k as [|k IH].
  - cbn. ring.
  - rewrite seq_S, map_app, sum_Q_app, IH. cbn [map sum_Q fold_right Nat.add]. ring.
Qed.

Lemma cubic_respects (c3 c2 c1 c0 : Q) : respects_Qeq (cubic c3 c2 c1 c0).
Proof. intros x y E. unfold cubic. rewrite E. reflexivity. Qed.

Lemma grid_succ (a h : Q) (i : nat) : (grid a h (S i) == grid a h i + h)%Q.
Proof.
  unfold grid. rewrite Nat2Z.inj_succ. unfold Z.succ. rewrite inject_Z_plus. ring.
Qed.

(** Simpson's rule on one pair of steps is exact for a cubic. *)
Lemma simpson_pair_cubic (c3 c2 c1 c0 x h : Q) :
  (h / 3 * (cubic c3 c2 c1 c0 x + 4 * cubic c3 c2 c1 c0 (x + h)
            + cubic c3 c2 c1 c0 (x + h + h))
   == cubic_primitive c3 c2 c1 c0 (x + h + h) - cubic_primitive c3 c2 c1 c0 x)%Q.
Proof. unfold cubic, cubic_primitive. field. Qed.

(** X12: on a cubic polynomial, over a valid interval cut in an even
    number of partitions of one length, [Simpson.calc()] returns the exact
    integral. *)
Theorem Simpson_cubic_exact
        (c3 c2 c1 c0 : Q) (s : option String.string)
        (interval : Interval.t Q) (self : Quadrature.t Q) (h : Q) (g : rng Q) :
  valid_interval interval ->
  Forall (fun p => Partition.length p == h)%Q (Interval.partitions interval) ->
  Simpson.init (AnnotatedFunction.mk (cubic c3 c2 c1 c0) s) interval = Ok self ->
  exists v,
    Simpson.calc self g = (Ok v, g)
    /\ (v == cubic_primitive c3 c2 c1 c0 (Interval.end_ interval)
            - cubic_primitive c3 c2 c1 c0 (Interval.start interval))%Q.
Proof.
  intros Hvalid Hh Hinit.
  destruct (valid_interval_common_length Hvalid Hh) as [_ Hne].
  destruct Hvalid as [_ Hchain].
  pose proof (init_even _ _ Hinit) as Heven.
  apply init_method in Hinit. subst self.
  destruct (Interval.partitions interval) as [|first rest] eqn:Hparts;
    [contradiction|].
  destruct (Simpson_calc_weighted (AnnotatedFunction.mk (cubic c3 c2 c1 c0) s)
                                  interval g Hparts) as (area & Hcalc & Harea).
  rewrite <- Hparts in *. clear Hne.
  cbn [AnnotatedFunction.func] in Harea. rewrite endpoint_ys_points in Harea.
  set (f := cubic c3 c2 c1 c0) in *.
  set (P := cubic_primitive c3 c2 c1 c0).
  set (a := Interval.start interval) in *.
  set (b := Interval.end_ interval) in *.
  set (parts := Interval.partitions interval) in *.
  set (ys := endpoint_ys f parts b) in *.
  apply Nat.even_spec in Heven. destruct Heven as [k' Hk'].
  destruct k' as [|k]; [rewrite Hparts in Hk'; cbn in Hk'; lia|].
  destruct (@chain_grid h b parts a Hchain Hh) as [Hstarts Hb].
  assert (Hy : forall i, i <= List.length parts -> (y_at ys i == f (grid a h i))%Q).
  { intros i Hi. destruct (Nat.eq_dec i (List.length parts)) as [->|Hneq].
    - unfold ys. rewrite endpoint_ys_end.
      apply (cubic_respects c3 c2 c1 c0). exact Hb.
    - unfold ys. rewrite endpoint_ys_start by lia.
      apply (cubic_respects c3 c2 c1 c0). apply Hstarts. lia. }
  assert (Hfirst : (Partition.length first == h)%Q).
  { subst parts. rewrite Hparts in Hh. inversion Hh; assumption. }
  exists (area * Partition.length first / 3)%Q. split; [exact Hcalc|].
  rewrite Harea, Hk', weighted_pairs, Hfirst.
  setoid_replace
    (sum_Q (map (fun j : nat => y_at ys (2 * j) + 4 * y_at ys (2 * j + 1)
                               + y_at ys (2 * j + 2)) (seq 0 (S k))) * h / 3)%Q
    with (h / 3 * sum_Q (map (fun j : nat => y_at ys (2 * j) + 4 * y_at ys (2 * j + 1)
                               + y_at ys (2 * j + 2)) (seq 0 (S k))))%Q
    by field.
  rewrite <- sum_Q_scale.
  rewrite (sum_Q_ext _ (fun j => P (grid a h (2 * S j)) - P (grid a h (2 * j)))%Q).
  - rewrite (index_telescope (fun j => P (grid a h (2 * j)))).
    rewrite <- Hk'. unfold P.
    rewrite <- (cubic_primitive_respects c3 c2 c1 c0 Hb).
    apply Qplus_comp; [reflexivity|]. apply Qopp_comp.
    apply (cubic_primitive_respects c3 c2 c1 c0). unfold grid. cbn. ring.
  - intros j Hj. apply in_seq in Hj.
    rewrite (Hy (2 * j)), (Hy (2 * j + 1)), (Hy (2 * j + 2)) by lia.
    replace (2 * j + 2) with (S (S (2 * j))) by lia.
    replace (2 * j + 1) with (S (2 * j)) by lia.
    replace (2 * S j) with (S (S (2 * j))) by lia.
    unfold f, P.
    rewrite (cubic_respects c3 c2 c1 c0 (grid_succ a h (S (2 * j)))).
    rewrite (cubic_primitive_respects c3 c2 c1 c0 (grid_succ a h (S (2 * j)))).
    assert (E1 : (grid a h (S (2 * j)) + h == grid a h (2 * j) + h + h)%Q)
      by (rewrite grid_succ; reflexivity).
    rewrite (cubic_respects c3 c2 c1 c0 E1).
    rewrite (cubic_primitive_respects c3 c2 c1 c0 E1).
    rewrite (cubic_respects c3 c2 c1 c0 (grid_succ a h (2 * j))).
    apply simpson_pair_cubic.
Qed.

Lemma Simpson_cubic_exact_witness :
  exists v,
    Simpson.calc (Quadrature.mk (AnnotatedFunction.mk (cubic 1 (-2) 0 5) None) I02
                                Method.Left) g0 = (Ok v, g0)
    /\ (v == cubic_primitive 1 (-2) 0 5 2 - cubic_primitive 1 (-2) 0 5 0)%Q.
Proof.
  apply (@Simpson_cubic_exact 1 (-2) 0 5 None I02
           (Quadrature.mk (AnnotatedFunction.mk (cubic 1 (-2) 0 5) None) I02 Method.Left)
           1%Q g0).
  - split; [reflexivity|]. cbn. repeat split; try reflexivity; discriminate.
  - repeat constructor.
  - reflexivity.
Defined.

(** ** [calc] and the drawn curves *)

Lemma nth_seq_map (A : Type) (d : A) (l : list A) :
  l = map (fun j => nth j l d) (seq 0 (List.length l)).
Proof.
  apply (nth_ext _ _ d ((fun j => nth j l d) 0)).
  - rewrite length_map, length_seq. reflexivity.
  - intros n Hn.
    rewrite (map_nth (fun j => nth j l d) (seq 0 (List.length l)) 0 n).
    rewrite seq_nth by exact Hn. reflexivity.
Qed.

(** The integral of the parabola fitted to three y-values is Simpson's
    term for them. *)
Lemma parabola_area_term (h y0 y1 y2 : Q) (coeffs : Q * Q * Q) :
  ~ (h == 0)%Q ->
  is_parabola h (y0, y1, y2) coeffs ->
  (parabola_area h coeffs == h / 3 * (y0 + 4 * y1 + y2))%Q.
Proof.
  intros Hh. destruct coeffs as [[A B] C]. intros (HA & _ & HC).
  unfold parabola_area. rewrite HA, HC. unfold parabola_A. field. exact Hh.
Qed.

(** X13: on a Simpson instance over contiguous partitions, with a first
    partition of non-zero length [h], the result of [calc()] is the sum,
    over the triples of [parabolas()], of the integral of each parabola
    over [-h, h]: the area that [calc()] returns is the area under the
    arcs that [parabolas()] describes. *)
Theorem Simpson_calc_area_under_parabolas
        (func : AnnotatedFunction.t Q) (interval : Interval.t Q)
        (self : Quadrature.t Q) (first : Partition.t Q) (g : rng Q) :
  chain (Interval.start interval) (Interval.partitions interval)
        (Interval.end_ interval) ->
  respects_Qeq (AnnotatedFunction.func func) ->
  Simpson.init func interval = Ok self ->
  hd_error (Interval.partitions interval) = Some first ->
  ~ (Partition.length first == 0)%Q ->
  exists v ts,
    Simpson.calc self g = (Ok v, g)
    /\ Simpson.parabolas self g = (Ok ts, g)
    /\ (v == sum_Q (map (parabola_area (Partition.length first)) ts))%Q.
Proof.
  intros Hchain Hf Hinit Hfirst Hsize.
  pose proof (init_even _ _ Hinit) as Heven.
  apply init_method in Hinit. subst self.
  apply Nat.even_spec in Heven. destruct Heven as [k' Hk'].
  destruct (@Simpson_parabolas_run (Quadrature.mk func interval Method.Left)
                                   first k' g Hfirst Hsize Hk')
    as (ts & Hrun & Hlen & Hj).
  cbn [Quadrature.interval Quadrature.func] in Hj.
  destruct (Interval.partitions interval) as [|first' rest] eqn:Hparts;
    [discriminate Hfirst|].
  inversion Hfirst; subst first'.
  destruct (Simpson_calc_weighted func interval g Hparts) as (area & Hcalc & Harea).
  rewrite <- Hparts in *.
  rewrite endpoint_ys_points in Harea.
  set (f := AnnotatedFunction.func func) in *.
  set (parts := Interval.partitions interval) in *.
  set (ys := endpoint_ys f parts (Interval.end_ interval)) in *.
  set (h := Partition.length first) in *.
  destruct k' as [|k]; [rewrite Hparts in Hk'; cbn in Hk'; lia|].
  exists (area * h / 3)%Q, ts. split; [exact Hcalc|]. split; [exact Hrun|].
  rewrite (nth_seq_map (0, 0, 0)%Q ts) at 1. rewrite map_map, Hlen.
  rewrite Harea, Hk', weighted_pairs.
  setoid_replace
    (sum_Q (map (fun j : nat => y_at ys (2 * j) + 4 * y_at ys (2 * j + 1)
                               + y_at ys (2 * j + 2)) (seq 0 (S k))) * h / 3)%Q
    with (h / 3 * sum_Q (map (fun j : nat => y_at ys (2 * j) + 4 * y_at ys (2 * j + 1)
                               + y_at ys (2 * j + 2)) (seq 0 (S k))))%Q
    by field.
  rewrite <- sum_Q_scale. apply sum_Q_ext. intros j Hin.
  apply in_seq in Hin.
  specialize (Hj j ltac:(lia)). unfold pair_ys in Hj.
  rewrite (@parabola_area_term h _ _ _ _ Hsize Hj).
  unfold ys. rewrite !endpoint_ys_start by lia.
  replace (2 * j + 2) with (S (2 * j + 1)) by lia.
  rewrite (@endpoint_ys_next f (Interval.end_ interval) Hf parts
                             (Interval.start interval) (2 * j + 1) Hchain)
    by lia.
  reflexivity.
Qed.

Lemma Simpson_calc_area_under_parabolas_witness :
  exists v ts,
    Simpson.calc (Quadrature.mk f_sq I013 Method.Left) g0 = (Ok v, g0)
    /\ Simpson.parabolas (Quadrature.mk f_sq I013 Method.Left) g0 = (Ok ts, g0)
    /\ (v == sum_Q (map (parabola_area (1 - 0)) ts))%Q.
Proof.
  apply (@Simpson_calc_area_under_parabolas
           f_sq I013 (Quadrature.mk f_sq I013 Method.Left) (Partition.mk 0%Q 1%Q) g0).
  - cbn. repeat split; try reflexivity; discriminate.
  - intros x y E. cbn. rewrite E. reflexivity.
  - reflexivity.
  - reflexivity.
  - discriminate.
Defined.

Lemma polyline_chain (f : Q -> Q) (b : Q) :
  respects_Qeq f ->
  forall (parts : list (Partition.t Q)) (a : Q),
    chain a parts b ->
    (polyline_area (map (left_point f) parts ++ [Point.mk b (f b)])
     == trapezoid_sum f parts)%Q.
Proof.
  intros Hf. unfold trapezoid_sum.
  induction parts as [|p rest IH]; intros a Hchain; [reflexivity|].
  destruct Hchain as (_ & _ & Hrest).
  cbn [map sum_Q fold_right app]. unfold sum_Q in IH.
  rewrite <- (IH _ Hrest).
  destruct rest as [|q rest].
  - cbn in Hrest. cbn. rewrite (Hf _ _ Hrest), Hrest. ring.
  - destruct Hrest as (Hq & _). cbn [map app polyline_area left_point Point.x Point.y].
    rewrite (Hf _ _ Hq), Hq. ring.
Qed.

(** X14: over contiguous partitions, the result of [Trapezoid.calc()] is
    the area between the x-axis and the polyline through [points], the
    line that [Trapezoid.graph] plots. *)
Theorem Trapezoid_calc_area_under_polyline
        (func : AnnotatedFunction.t Q) (interval : Interval.t Q) (g : rng Q) :
  chain (Interval.start interval) (Interval.partitions interval)
        (Interval.end_ interval) ->
  respects_Qeq (AnnotatedFunction.func func) ->
  exists pts t,
    Trapezoid.points (Trapezoid.init func interval) g = (Ok pts, g)
    /\ Trapezoid.calc (Trapezoid.init func interval) g = (Ok t, g)
    /\ (t == polyline_area pts)%Q.
Proof.
  intros Hchain Hf.
  destruct (Trapezoid_calc_rule func interval g) as (t & Ht & Et).
  eexists; exists t. split; [|split; [exact Ht|]].
  - apply endpoint_points. apply points_left.
  - rewrite Et. symmetry.
    apply (@polyline_chain _ _ Hf _ _ Hchain).
Qed.

Lemma Trapezoid_calc_area_under_polyline_witness :
  exists pts t,
    Trapezoid.points (Trapezoid.init f_sq I013) g0 = (Ok pts, g0)
    /\ Trapezoid.calc (Trapezoid.init f_sq I013) g0 = (Ok t, g0)
    /\ (t == polyline_area pts)%Q.
Proof.
  apply (@Trapezoid_calc_area_under_polyline f_sq I013 g0).
  - cbn. repeat split; try reflexivity; discriminate.
  - intros x y E. cbn. rewrite E. reflexivity.
Defined.
